(** * Backup service: status table, backup job life cycle, archive listing
      and download

A shallow embedding of the Express server of the repository (the file
that defines [backupStatus], [performBackup] and the routes
[/api/backup/...], [/api/backup/status/:backupId], [/api/backups/list]
and [/api/backups/download/:key( * )]), and theorems about it. *)

From Stdlib Require Import ZArith Lia List Ascii String Sorted.
From Stdlib Require Import Floats.SpecFloat.
From stdpp Require Import base option list strings pretty gmap.

Local Open Scope string_scope.
Local Open Scope Z_scope.

(** ** JavaScript strings and thrown values *)

Module Js.

(** [s.endsWith(suffix)]. *)
Fixpoint endsWith (s suffix : string) : bool :=
  String.eqb s suffix ||
  match s with
  | EmptyString => false
  | String _ s' => endsWith s' suffix
  end.

(** [s.split(sep)] for a separator of one character. *)
Fixpoint split (sep : ascii) (s : string) : list string :=
  match s with
  | EmptyString => [EmptyString]
  | String c s' =>
      if Ascii.eqb c sep then EmptyString :: split sep s'
      else match split sep s' with
           | seg :: rest => String c seg :: rest
           | [] => [String c EmptyString]
           end
  end.

(** [s.includes(c)] for one character. *)
Fixpoint contains (c : ascii) (s : string) : bool :=
  match s with
  | EmptyString => false
  | String x s' => Ascii.eqb x c || contains c s'
  end.

(** [parts.join(sep)]. *)
Definition join (sep : string) (parts : list string) : string :=
  String.concat sep parts.

(** [l.slice(-n)]: the last [n] elements (all of them when there are
    fewer). *)
Definition slice_last {A} (n : nat) (l : list A) : list A :=
  skipn (length l - n)%nat l.

(** [l.slice(0, -n)]: all but the last [n] elements. *)
Definition slice_but_last {A} (n : nat) (l : list A) : list A :=
  firstn (length l - n)%nat l.

(** [s.replace(pat, rep)] with a string pattern: the first occurrence
    only. *)
Fixpoint replace (pat rep s : string) : string :=
  if String.prefix pat s
  then rep +:+ String.substring (String.length pat)
                 (String.length s - String.length pat) s
  else match s with
       | EmptyString => EmptyString
       | String c s' => String c (replace pat rep s')
       end.

(** Truthiness of a string: [""] is falsy. *)
Definition truthy (s : string) : bool :=
  match s with EmptyString => false | _ => true end.

(** Truthiness of an optional string such as [process.env.X]:
    [undefined] and [""] are falsy. *)
Definition truthy_opt (o : option string) : bool :=
  match o with Some s => truthy s | None => false end.

(** [arr.sort(cmp)], which the language requires to be stable; modelled
    as an insertion sort. An element stays before the ones that followed
    it unless the comparator returns a positive number. For a comparator
    that is a consistent order this is the result of every stable sort.
    For one that is not, as [by_date_desc] below when some date is empty,
    the language leaves the order to the engine, and the engine's may
    differ from this one: of such a result only what holds of every
    permutation is used. *)
Fixpoint sort_insert {A} (cmp : A -> A -> Z) (x : A) (l : list A) : list A :=
  match l with
  | [] => [x]
  | y :: l' => if cmp x y <=? 0 then x :: y :: l' else y :: sort_insert cmp x l'
  end.

Definition sort {A} (cmp : A -> A -> Z) (l : list A) : list A :=
  foldr (sort_insert cmp) [] l.

(** Order of two strings by character code, as a number in -1, 0, 1.
    [String.prototype.localeCompare] follows the collation of the host,
    which is another order: it puts [apr01] before [Mar01], where the
    character codes put the capital first. On strings of decimal digits
    ([decimal] below) the two orders agree, and only there does this
    definition stand for [localeCompare]. *)
Definition localeCompare (s t : string) : Z :=
  match String.compare s t with
  | Lt => -1
  | Eq => 0
  | Gt => 1
  end.

(** The string is made of decimal digits. *)
Definition is_digit (c : ascii) : bool :=
  let n := nat_of_ascii c in ((48 <=? n) && (n <=? 57))%nat.

Fixpoint decimal (s : string) : bool :=
  match s with
  | EmptyString => true
  | String c rest => is_digit c && decimal rest
  end.

(** Numbers are IEEE 754 doubles: [double z] is the double nearest to the
    integer [z], which is [z] itself below 2^53. *)
Definition double (z : Z) : spec_float := binary_normalize 53 1024 z 0 false.

Definition divide (x y : spec_float) : spec_float := SFdiv 53 1024 x y.

Definition multiply (x y : spec_float) : spec_float := SFmul 53 1024 x y.

(** [Math.round(x)]: the integer nearest to [x], the upper one of two that
    are equally near. (For an [x] that is not finite, which no quotient of
    byte counts below 2^1000 gives, the source has [Infinity] or [NaN];
    0 is written here.) *)
Definition Math_round (x : spec_float) : Z :=
  match x with
  | S754_finite s m e =>
      let n := if s then Z.neg m else Z.pos m in
      if 0 <=? e then n * 2 ^ e
      else (2 * n + 2 ^ (- e)) / 2 ^ (1 - e)
  | _ => 0
  end.

(** What a [throw] carries and a [catch] receives: an [Error] object
    with its message, or some other value. *)
Inductive Thrown : Type :=
| ErrorObj (message : string)
| NonError (nullish : bool).

(** [error instanceof Error ? error.message : fallback]. *)
Definition message_or (fallback : string) (e : Thrown) : string :=
  match e with
  | ErrorObj m => m
  | NonError _ => fallback
  end.

End Js.

(** ** Listing: [GET /api/backups/list] *)

Module Listing.

(** An element of [response.Contents]. *)
Record S3Object : Type := mkS3Object {
  Key : option string;
  Size : option Z;
  LastModified : option string
}.

(** An element of the [backups] array of the response. *)
Record ArchiveSummary : Type := mkSummary {
  key : string;
  projectName : string;
  date : string;
  dataset : string;
  projectId : string;
  size : Z;
  lastModified : option string;
  sizeMB : string
}.

(** [(bytes / (1024 * 1024)).toFixed(2)]. The division by a power of two
    is exact for sizes below 2^53, and [toFixed] rounds half up. *)
Definition toFixed2_MB (bytes : Z) : string :=
  let hundredths := (bytes * 200 + 1048576) / 2097152 in
  let frac := hundredths mod 100 in
  pretty (hundredths / 100) +:+ "." +:+
  (if frac <? 10 then "0" else "") +:+ pretty frac.

(** The callback of [.filter]: [obj.Key && obj.Key.endsWith('.tar.gz')]. *)
Definition is_backup_file (obj : S3Object) : bool :=
  match Key obj with
  | Some k => Js.truthy k && Js.endsWith k ".tar.gz"
  | None => false
  end.

(** The callback of [.map]. *)
Definition summarize (obj : S3Object) : ArchiveSummary :=
  let key := default "" (Key obj) in
  let parts := Js.split "-" key in
  let '(projectName, date, dataset, projectId) :=
    if (4 <=? length parts)%nat then
      let lastThreeParts := Js.slice_last 3 parts in
      (Js.join "-" (Js.slice_but_last 3 parts),
       nth 0 lastThreeParts "",
       nth 1 lastThreeParts "",
       Js.replace ".tar.gz" "" (nth 2 lastThreeParts ""))
    else ("", "", "", "") in
  {| key := key;
     projectName := projectName;
     date := date;
     dataset := dataset;
     projectId := projectId;
     size := match Size obj with Some n => n | None => 0 end;
     lastModified := LastModified obj;
     sizeMB := match Size obj with
               | Some n => if n =? 0 then "0" else toFixed2_MB n
               | None => "0"
               end |}.

(** The comparator of [.sort]: newest date first when both dates are
    non-empty, no preference otherwise. *)
Definition by_date_desc (a b : ArchiveSummary) : Z :=
  if Js.truthy (date a) && Js.truthy (date b)
  then Js.localeCompare (date b) (date a)
  else 0.

Definition backupFiles (contents : list S3Object) : list ArchiveSummary :=
  Js.sort by_date_desc (map summarize (filter is_backup_file contents)).

(** What [s3Client.send(new ListObjectsV2Command ...)] does: it throws,
    or it resolves to a response whose [Contents] may be missing. *)
Inductive ListObjectsResult : Type :=
| ListThrows (e : Js.Thrown)
| ListResolves (Contents : option (list S3Object)).

Inductive ListResponse : Type :=
| ListError (httpStatus : Z) (error : string)
| ListNone (message : string)
| ListBackups (backups : list ArchiveSummary) (totalCount : nat)
              (bucket region : string).

(** The handler. [S3_BUCKET_NAME] and [AWS_REGION] are the environment
    variables; [listObjects] is the storage client, given the bucket. The
    [details] of an error response (the stack trace) are left out. *)
Definition listArchives (S3_BUCKET_NAME AWS_REGION : option string)
    (listObjects : string -> ListObjectsResult) : ListResponse :=
  if negb (Js.truthy_opt S3_BUCKET_NAME) then
    ListError 500 "S3_BUCKET_NAME environment variable is not set"
  else
    let bucket := default "" S3_BUCKET_NAME in
    match listObjects bucket with
    | ListThrows e => ListError 500 (Js.message_or "Unknown error occurred" e)
    | ListResolves None => ListNone "No backup files found in bucket"
    | ListResolves (Some contents) =>
        let files := backupFiles contents in
        ListBackups files (length files) bucket
          (if Js.truthy_opt AWS_REGION then default "" AWS_REGION
           else "ca-central-1")
    end.

End Listing.

Module ListingExamples.
Import Listing.

Definition january : S3Object :=
  mkS3Object (Some "acme-2025-01-15-production-abc123.tar.gz") (Some 2097152) None.
Definition february : S3Object :=
  mkS3Object (Some "acme-2025-02-01-staging-def456.tar.gz") (Some 1048576) None.

Definition bucket_of (contents : list S3Object) : string -> ListObjectsResult :=
  fun _ => ListResolves (Some contents).

(** What the handler makes of the two objects. *)
Definition january_summary : ArchiveSummary :=
  mkSummary "acme-2025-01-15-production-abc123.tar.gz"
            "acme-2025-01" "15" "production" "abc123" 2097152 None "2.00".
Definition february_summary : ArchiveSummary :=
  mkSummary "acme-2025-02-01-staging-def456.tar.gz"
            "acme-2025-02" "01" "staging" "def456" 1048576 None "1.00".

End ListingExamples.

(** ** The status table and the backup job *)

Module Backup.

Inductive Status : Type :=
| pending | exporting | uploading | completed | failed.

(** A value of the map [backupStatus]. *)
Record Entry : Type := mkEntry {
  status : Status;
  message : string;
  progress : option Z;
  error : option string;
  s3Location : option string;
  etag : option string;
  startTime : Z
}.

(** A local file: its size, and whether [fs.unlinkSync] may remove it. *)
Record File : Type := mkFile {
  fsize : Z;
  deletable : bool
}.

(** What a run does, in the order in which it does it. *)
Inductive Event : Type :=
| TableSet (backupId : string) (entry : Entry)
| Responded (backupId : string)
| ClientCreated
| ProbeCalled
| ExportCalled (outputPath : string)
| UploadCalled (Key : string)
| Unlinked (path : string)
| CleanupFailed (cleanupError : Js.Thrown)
| UnhandledRejection.

(** What a status query sees at one instant. *)
Record Snapshot : Type := mkSnapshot {
  snap_table : gmap string Entry;
  snap_now : Z
}.

(** The process state. [caller] is the rest of the route handler that
    called [performBackup] without awaiting it: it runs, and answers the
    request, as soon as [performBackup] first yields. [returned] is the
    table and the clock at that instant. *)
Record World : Type := mkWorld {
  backupStatus : gmap string Entry;
  files : gmap string File;
  now : Z;
  trace : list Event;
  caller : option string;
  returned : option Snapshot
}.

(** [process.env], and how the collaborators behave during one run: the
    content-store client, the export library and the storage upload. *)
Record Scenario : Type := mkScenario {
  S3_BUCKET_NAME : option string;
  AWS_ACCESS_KEY_ID : option string;
  AWS_SECRET_ACCESS_KEY : option string;
  createClient_throws : option Js.Thrown;
  probe_delay : Z;
  probe_throws : option Js.Thrown;
  export_delay : Z;
  export_writes : option File;
  export_throws : option Js.Thrown;
  upload_progress : list (option Z * option Z);
  upload_delay : Z;
  upload_result : Js.Thrown + option string
}.

(** *** A state and exception monad over [World] *)

Inductive Result (A : Type) : Type :=
| Returned (a : A)
| Threw (e : Js.Thrown).
Arguments Returned {A} a.
Arguments Threw {A} e.

Definition M (A : Type) : Type := World -> Result A * World.

Definition ret {A} (a : A) : M A := fun w => (Returned a, w).

Definition throw {A} (e : Js.Thrown) : M A := fun w => (Threw e, w).

Definition bind {A B} (m : M A) (k : A -> M B) : M B :=
  fun w =>
    match m w with
    | (Returned a, w') => k a w'
    | (Threw e, w') => (Threw e, w')
    end.

Definition try_catch {A} (m : M A) (handler : Js.Thrown -> M A) : M A :=
  fun w =>
    match m w with
    | (Returned a, w') => (Returned a, w')
    | (Threw e, w') => handler e w'
    end.

Declare Scope js_scope.
Delimit Scope js_scope with js.
Notation "x <- m ;; k" := (bind m (fun x => k))
  (at level 100, m at next level, right associativity) : js_scope.
Notation "m ;; k" := (bind m (fun _ => k))
  (at level 100, right associativity) : js_scope.
Local Open Scope js_scope.

Definition when_ (b : bool) (m : M unit) : M unit :=
  if b then m else ret tt.

Definition modify (f : World -> World) : M unit := fun w => (Returned tt, f w).

Definition log (ev : Event) : M unit :=
  modify (fun w => mkWorld (backupStatus w) (files w) (now w)
                           (trace w ++ [ev]) (caller w) (returned w)).

(** [Date.now()]. *)
Definition Date_now : M Z := fun w => (Returned (now w), w).

(** [backupStatus.set(backupId, entry)]. *)
Definition backupStatus_set (backupId : string) (entry : Entry) : M unit :=
  modify (fun w => mkWorld (<[backupId := entry]> (backupStatus w)) (files w)
                           (now w) (trace w) (caller w) (returned w)) ;;
  log (TableSet backupId entry).

(** [backupStatus.get(backupId)]. *)
Definition backupStatus_get (backupId : string) : M (option Entry) :=
  fun w => (Returned (backupStatus w !! backupId), w).

(** The handler that is waiting for [performBackup] to yield finishes:
    [res.json({status: 'OK', message: 'Backup started', backupId})]. *)
Definition yield_to_caller : M unit :=
  fun w =>
    match caller w with
    | Some backupId =>
        (Returned tt,
         mkWorld (backupStatus w) (files w) (now w)
                 (trace w ++ [Responded backupId]) None
                 (Some (mkSnapshot (backupStatus w) (now w))))
    | None => (Returned tt, w)
    end.

(** [delay] milliseconds pass. *)
Definition elapse (delay : Z) : M unit :=
  modify (fun w => mkWorld (backupStatus w) (files w) (now w + delay)
                           (trace w) (caller w) (returned w)).

(** [await] of a promise that settles after [delay] milliseconds. *)
Definition await (delay : Z) : M unit :=
  yield_to_caller ;; elapse delay.

(** Runs [m] and hands back how it ended, as a promise does. *)
Definition attempt {A} (m : M A) : M (Result A) :=
  fun w => let '(r, w') := m w in (Returned r, w').

Fixpoint for_each {A} (f : A -> M unit) (l : list A) : M unit :=
  match l with
  | [] => ret tt
  | x :: l' => f x ;; for_each f l'
  end.

(** [throw e] when the collaborator fails with [e]. *)
Definition settle (outcome : option Js.Thrown) : M unit :=
  match outcome with
  | Some e => throw e
  | None => ret tt
  end.

(** *** The file system *)

Definition existsSync (path : string) : M bool :=
  fun w =>
    (Returned match files w !! path with Some _ => true | None => false end, w).

Definition statSync (path : string) : M Z :=
  fun w =>
    match files w !! path with
    | Some f => (Returned (fsize f), w)
    | None =>
        (Threw (Js.ErrorObj ("ENOENT: no such file or directory, stat '"
                             +:+ path +:+ "'")), w)
    end.

Definition unlinkSync (path : string) : M unit :=
  fun w =>
    match files w !! path with
    | Some f =>
        if deletable f then
          (Returned tt,
           mkWorld (backupStatus w) (delete path (files w)) (now w)
                   (trace w ++ [Unlinked path]) (caller w) (returned w))
        else
          (Threw (Js.ErrorObj ("EPERM: operation not permitted, unlink '"
                               +:+ path +:+ "'")), w)
    | None =>
        (Threw (Js.ErrorObj ("ENOENT: no such file or directory, unlink '"
                             +:+ path +:+ "'")), w)
    end.

(** *** The job *)

Section Job.

(** [createFilename] is imported from [./utils/lib], which is not among
    the sources at hand. The file names in the usage notes of the
    scripts ([sitetechnology-2025-01-15-production-abc123.tar.gz]) show
    that it embeds the date of the day, so it is given the clock. *)
Variable createFilename : Z -> string -> string -> string -> string.

Variable sc : Scenario.

Definition createFilename_now (projectId dataset projectName : string)
  : M string :=
  fun w => (Returned (createFilename (now w) projectId dataset projectName), w).

(** [createClient({projectId, dataset, apiVersion, token, useCdn})]. *)
Definition createClient : M unit :=
  log ClientCreated ;; settle (createClient_throws sc).

(** [await client.fetch('*[_type == "sanity.imageAsset"][0]')]. *)
Definition client_fetch : M unit :=
  log ProbeCalled ;; await (probe_delay sc) ;; settle (probe_throws sc).

(** [await exportDataset({client, dataset, outputPath: filename, ...})]:
    the library leaves behind whatever it wrote. *)
Definition exportDataset (filename : string) : M unit :=
  log (ExportCalled filename) ;;
  await (export_delay sc) ;;
  modify (fun w =>
            match export_writes sc with
            | Some f => mkWorld (backupStatus w) (<[filename := f]> (files w))
                                (now w) (trace w) (caller w) (returned w)
            | None => w
            end) ;;
  settle (export_throws sc).

(** [Math.round((loaded / total) * 100)], in the floating-point
    arithmetic of the source: the quotient is rounded to a double, and so
    is the product. *)
Definition percentage (loaded total : Z) : Z :=
  Js.Math_round
    (Js.multiply (Js.divide (Js.double loaded) (Js.double total)) (Js.double 100)).

(** The listener of ['httpUploadProgress']. The [!] of the source
    asserts that the entry is there, as it is whenever [performBackup]
    runs; an absent entry would spread to nothing, and the [startTime]
    that would then be missing is written 0. *)
Definition onProgress (backupId : string) (ev : option Z * option Z)
  : M unit :=
  match ev with
  | (Some loaded, Some total) =>
      if negb (loaded =? 0) && negb (total =? 0) then
        old <- backupStatus_get backupId ;;
        let pct := percentage loaded total in
        let msg := "Uploading to S3... " +:+ pretty pct +:+ "%" in
        backupStatus_set backupId
          match old with
          | Some o => mkEntry uploading msg (Some pct) (error o)
                              (s3Location o) (etag o) (startTime o)
          | None => mkEntry uploading msg (Some pct) None None None 0
          end
      else ret tt
  | _ => ret tt
  end.

(** [new Upload({...})], [upload.on('httpUploadProgress', ...)] and
    [await upload.done()]; the result is [s3Result.ETag]. The progress
    events arrive while the upload is under way, none after it has
    settled. *)
Definition upload_done (backupId filename : string) : M (option string) :=
  log (UploadCalled filename) ;;
  yield_to_caller ;;
  for_each (onProgress backupId) (upload_progress sc) ;;
  elapse (upload_delay sc) ;;
  match upload_result sc with
  | inl e => throw e
  | inr ETag => ret ETag
  end.

(** The [try] block of [performBackup], in the stages that its comments
    mark. First: "Validate environment variables". *)
Definition validate_environment : M unit :=
  when_ (negb (Js.truthy_opt (S3_BUCKET_NAME sc)))
    (throw (Js.ErrorObj "S3_BUCKET_NAME environment variable is not set")) ;;
  when_ (negb (Js.truthy_opt (AWS_ACCESS_KEY_ID sc)))
    (throw (Js.ErrorObj "AWS_ACCESS_KEY_ID environment variable is not set")) ;;
  when_ (negb (Js.truthy_opt (AWS_SECRET_ACCESS_KEY sc)))
    (throw (Js.ErrorObj "AWS_SECRET_ACCESS_KEY environment variable is not set")).

(** "Test Sanity connection". *)
Definition test_connection : M unit :=
  try_catch client_fetch
    (fun sanityError =>
       throw (Js.ErrorObj ("Failed to connect to Sanity: " +:+
                           Js.message_or "Unknown error" sanityError))).

(** The export, the check of its output, the upload, the removal of the
    local file and the final entry. *)
Definition export_and_upload
    (backupId projectId dataset projectName : string) : M unit :=
  filename <- createFilename_now projectId dataset projectName ;;
  t <- Date_now ;;
  backupStatus_set backupId
    (mkEntry exporting "Exporting data" None None None None t) ;;
  exportDataset filename ;;
  t <- Date_now ;;
  backupStatus_set backupId
    (mkEntry uploading "Uploading to S3..." None None None None t) ;;
  found <- existsSync filename ;;
  when_ (negb found)
    (throw (Js.ErrorObj ("Export file not found: " +:+ filename))) ;;
  _ <- statSync filename ;;
  ETag <- upload_done backupId filename ;;
  unlinkSync filename ;;
  t <- Date_now ;;
  backupStatus_set backupId
    (mkEntry completed "Backup completed successfully" None None
             (Some filename) ETag t).

Definition performBackup_try
    (backupId projectId dataset apiVersion token projectName : string)
  : M unit :=
  validate_environment ;;
  createClient ;;
  test_connection ;;
  export_and_upload backupId projectId dataset projectName.

(** The [catch] block of [performBackup]. *)
Definition performBackup_catch
    (backupId projectId dataset projectName : string) (error : Js.Thrown)
  : M unit :=
  filename <- createFilename_now projectId dataset projectName ;;
  found <- existsSync filename ;;
  when_ found
    (try_catch (_ <- statSync filename ;; unlinkSync filename)
               (fun cleanupError => log (CleanupFailed cleanupError))) ;;
  let errorMessage := Js.message_or "Unknown error" error in
  t <- Date_now ;;
  backupStatus_set backupId
    (mkEntry failed "Backup failed" None (Some errorMessage) None None t) ;;
  throw error.

Definition performBackup
    (backupId projectId dataset apiVersion token projectName : string)
  : M unit :=
  try_catch
    (performBackup_try backupId projectId dataset apiVersion token projectName)
    (performBackup_catch backupId projectId dataset projectName).

(** The callback of [.catch] in the route. It reads [error.name] first,
    which itself throws when [error] is [null] or [undefined]: the promise
    that [.catch] returns is then rejected, nothing handles the rejection,
    and Node ends the process on it ([process_ended] below). *)
Definition on_background_failure (backupId : string) (error : Js.Thrown)
  : M unit :=
  match error with
  | Js.NonError true => log UnhandledRejection
  | _ =>
      t <- Date_now ;;
      backupStatus_set backupId
        (mkEntry failed "Backup failed" None
                 (Some (Js.message_or "Unknown error" error)) None None t)
  end.

(** [`${projectId}-${dataset}-${Date.now()}`]. *)
Definition make_backupId (projectId dataset : string) (t : Z) : string :=
  projectId +:+ "-" +:+ dataset +:+ "-" +:+ pretty t.

(** The route [GET /api/backup/:projectId/:dataset/:apiVersion/:token/:projectName],
    followed to the end of the job it starts. *)
Definition startBackup
    (projectId dataset apiVersion token projectName : string) : M string :=
  t <- Date_now ;;
  let backupId := make_backupId projectId dataset t in
  t <- Date_now ;;
  backupStatus_set backupId
    (mkEntry pending "Starting backup process..." None None None None t) ;;
  modify (fun w => mkWorld (backupStatus w) (files w) (now w) (trace w)
                           (Some backupId) (returned w)) ;;
  outcome <- attempt (performBackup backupId projectId dataset apiVersion
                                    token projectName) ;;
  yield_to_caller ;;
  match outcome with
  | Threw error => on_background_failure backupId error
  | Returned _ => ret tt
  end ;;
  ret backupId.

End Job.

(** *** Status queries: [GET /api/backup/status/:backupId] *)

Record StatusView : Type := mkStatusView {
  view_status : Status;
  view_message : string;
  view_progress : option Z;
  view_error : option string;
  view_s3Location : option string;
  view_etag : option string;
  view_startTime : Z;
  duration : Z
}.

Inductive StatusResponse : Type :=
| StatusNotFound (httpStatus : Z) (message : string)
| StatusFound (view : StatusView).

Definition getStatus (backupId : string) (s : Snapshot) : StatusResponse :=
  match snap_table s !! backupId with
  | None => StatusNotFound 404 "Backup not found"
  | Some st =>
      StatusFound (mkStatusView (status st) (message st) (progress st)
                     (error st) (s3Location st) (etag st) (startTime st)
                     (snap_now s - startTime st))
  end.

Definition snapshot (w : World) : Snapshot :=
  mkSnapshot (backupStatus w) (now w).

(** The process between two requests, at time [t], with the status
    table [table] and the local files [fs]; the history starts here. *)
Definition at_rest (table : gmap string Entry) (fs : gmap string File)
    (t : Z) : World :=
  mkWorld table fs t [] None None.

(** *** Observations on a history *)

(** The entry that the route writes first. *)
Definition pending_entry (t : Z) : Entry :=
  mkEntry pending "Starting backup process..." None None None None t.

(** The world in which the route calls [performBackup] for the job
    [backupId], from [at_rest table fs t]. *)
Definition started (table : gmap string Entry) (fs : gmap string File)
    (t : Z) (backupId : string) : World :=
  mkWorld (<[backupId := pending_entry t]> table) fs t
          [TableSet backupId (pending_entry t)] (Some backupId) None.

(** What is left of the route once [performBackup] has settled with
    [outcome]: the answer if it is still due, and the [.catch] callback. *)
Definition route_tail (backupId : string) (outcome : Result unit) : M string :=
  (yield_to_caller ;;
   match outcome with
   | Threw err => on_background_failure backupId err
   | Returned _ => ret tt
   end ;;
   ret backupId)%js.

Definition terminal (s : Status) : bool :=
  match s with
  | completed | failed => true
  | _ => false
  end.

(** The entries written for [backupId], oldest first. *)
Fixpoint writes_to (backupId : string) (tr : list Event) : list Entry :=
  match tr with
  | [] => []
  | TableSet id entry :: tr' =>
      if String.eqb id backupId then entry :: writes_to backupId tr'
      else writes_to backupId tr'
  | _ :: tr' => writes_to backupId tr'
  end.

(** No entry follows one whose state is terminal. *)
Fixpoint terminal_is_last (entries : list Entry) : bool :=
  match entries with
  | [] => true
  | e :: rest =>
      if terminal (status e)
      then match rest with [] => true | _ => false end
      else terminal_is_last rest
  end.

(** The number of calls of the export library. *)
Fixpoint export_calls (tr : list Event) : nat :=
  match tr with
  | [] => 0
  | ExportCalled _ :: tr' => S (export_calls tr')
  | _ :: tr' => export_calls tr'
  end.

(** The number of uploads started. *)
Fixpoint upload_calls (tr : list Event) : nat :=
  match tr with
  | [] => 0
  | UploadCalled _ :: tr' => S (upload_calls tr')
  | _ :: tr' => upload_calls tr'
  end.

(** The entry that both [catch] handlers write for the error [error]. *)
Definition failure_entry (error : Js.Thrown) (t : Z) : Entry :=
  mkEntry failed "Backup failed" None
          (Some (Js.message_or "Unknown error" error)) None None t.

(** The bucket name and both credentials are set. *)
Definition storage_configured (sc : Scenario) : bool :=
  Js.truthy_opt (S3_BUCKET_NAME sc) &&
  Js.truthy_opt (AWS_ACCESS_KEY_ID sc) &&
  Js.truthy_opt (AWS_SECRET_ACCESS_KEY sc).

(** [createClient] does not throw. *)
Definition client_created (sc : Scenario) : bool :=
  match createClient_throws sc with
  | None => true
  | Some _ => false
  end.


(** Best-effort removal of the local file [path] between [w] and [w'],
    with the events [evs]: nothing when the file is absent, the removal
    when it can be removed, and only a logged error otherwise. *)
Definition cleaned (path : string) (w w' : World) (evs : list Event) : Prop :=
  match files w !! path with
  | None => files w' = files w /\ evs = []
  | Some f =>
      if deletable f
      then files w' = delete path (files w) /\ evs = [Unlinked path]
      else files w' = files w /\
           exists cleanupError, evs = [CleanupFailed cleanupError]
  end.

Definition nonterminal (e : Entry) : Prop := terminal (status e) = false.

(** [w'] continues [w] with no terminal write for [backupId]; and if the
    caller had been answered in [w], what it was shown stays as it was. *)
Definition calm (backupId : string) (w w' : World) : Prop :=
  (caller w = None -> caller w' = None /\ returned w' = returned w) /\
  exists evs, trace w' = (trace w ++ evs)%list /\
              Forall nonterminal (writes_to backupId evs).

(** [w'] continues [w] likewise, and then with one last write for
    [backupId], of a [completed] entry. *)
Definition crowned (backupId : string) (w w' : World) : Prop :=
  (caller w = None -> caller w' = None /\ returned w' = returned w) /\
  exists evs c, trace w' = (trace w ++ evs ++ [TableSet backupId c])%list /\
                Forall nonterminal (writes_to backupId evs) /\
                status c = completed.

Definition quiet {A} (backupId : string) (m : M A) : Prop :=
  forall w, calm backupId w (snd (m w)).

Definition crowning {A} (backupId : string) (m : M A) : Prop :=
  forall w,
    match m w with
    | (Returned _, w') => crowned backupId w w'
    | (Threw _, w') => calm backupId w w'
    end.

(** How the writes for one job may end: with one [completed] entry, or
    with one [failed] entry that may be written a second time with the
    same error. *)
Inductive closes : list Entry -> Prop :=
| closes_completed c :
    status c = completed -> closes [c]
| closes_failed f :
    status f = failed -> closes [f]
| closes_failed_again f f' :
    status f = failed -> status f' = failed -> error f' = error f ->
    closes [f; f'].

(** *** The end of the process *)

(** The server sets no [unhandledRejection] listener, so that an unhandled
    rejection is raised as an uncaught exception and ends the process:
    [UnhandledRejection] is the last event of a process. *)
Definition is_rejection (ev : Event) : bool :=
  match ev with
  | UnhandledRejection => true
  | _ => false
  end.

Definition process_ended (w : World) : bool := existsb is_rejection (trace w).

(** The status route at time [t] of the process that has come to [w]: the
    route answers as long as there is a process. *)
Definition statusRoute (backupId : string) (w : World) (t : Z)
  : option StatusResponse :=
  if process_ended w then None
  else Some (getStatus backupId (mkSnapshot (backupStatus w) t)).

(** The promise of [performBackup] is rejected with [null] or
    [undefined]. *)
Definition rejected_with_nothing {A} (outcome : Result A) : bool :=
  match outcome with
  | Threw (Js.NonError true) => true
  | _ => false
  end.

End Backup.

(** ** Download: [GET /api/backups/download/:key( * )] *)

Module Download.

(** The [Body] of a response, a readable stream: the bytes it delivers, and
    the error it then fails with, if it does not end well. *)
Record BodyStream : Type := mkBody {
  delivered : string;
  failure : option Js.Thrown
}.

(** What [s3Client.send(new GetObjectCommand ...)] does. *)
Inductive GetObjectResult : Type :=
| GetThrows (e : Js.Thrown)
| GetResolves (Body : option BodyStream) (ContentLength : option Z).

(** What becomes of the request: an error response; a download that is
    streamed to its end; or the end of the process: [stream.pipe(res)]
    forwards no error and the handler puts no [error] listener on the
    stream, so that Node raises a failure of the stream as an uncaught
    exception, which ends the process. [ProcessExit] keeps the headers
    that were set and the bytes that were piped before the failure. *)
Inductive DownloadResponse : Type :=
| DownloadError (httpStatus : Z) (error : string)
| DownloadStream (contentType contentDisposition : string)
                 (contentLength : option string) (body : string)
| ProcessExit (contentType contentDisposition : string)
              (contentLength : option string) (sent : string)
              (uncaught : Js.Thrown).

Definition quote : string := String "034"%char EmptyString.

(** The characters [res.setHeader] of Node accepts in a header value: the
    tab, the printable characters of ASCII, and the code units from 128 to
    255. A character of a string stands for a code unit below 256 here;
    the code units above, which no string of this development holds, are
    refused by [res.setHeader] as well. *)
Definition header_char_ok (c : ascii) : bool :=
  let n := nat_of_ascii c in
  ((n =? 9) || ((32 <=? n) && (n <=? 126)) || (128 <=? n))%nat.

Fixpoint header_valid (s : string) : bool :=
  match s with
  | EmptyString => true
  | String c rest => header_char_ok c && header_valid rest
  end.

(** The message of the [TypeError] that [res.setHeader] throws for a value
    with a character it does not accept. *)
Definition invalid_header (name : string) : string :=
  "Invalid character in header content [" +:+ quote +:+ name +:+ quote +:+ "]".

(** The value of the [Content-Disposition] header. *)
Definition contentDisposition (key : string) : string :=
  "attachment; filename=" +:+ quote +:+ List.last (Js.split "/" key) "" +:+ quote.

(** The handler; [getObject] is the storage client, given the bucket and
    the key. Whatever is thrown before [stream.pipe(res)] is caught by the
    handler's [catch] and answered with status 500. *)
Definition downloadArchive (S3_BUCKET_NAME : option string)
    (getObject : string -> string -> GetObjectResult) (key : string)
  : DownloadResponse :=
  if negb (Js.truthy_opt S3_BUCKET_NAME) then
    DownloadError 500 "S3_BUCKET_NAME environment variable is not set"
  else
    match getObject (default "" S3_BUCKET_NAME) key with
    | GetThrows e => DownloadError 500 (Js.message_or "Unknown error occurred" e)
    | GetResolves None _ =>
        DownloadError 500 "No response body received from S3"
    | GetResolves (Some stream) ContentLength =>
        if negb (header_valid (contentDisposition key)) then
          DownloadError 500 (invalid_header "Content-Disposition")
        else
          let contentLength :=
            match ContentLength with
            | Some n => if n =? 0 then None else Some (pretty n)
            | None => None
            end in
          match failure stream with
          | None =>
              DownloadStream "application/gzip" (contentDisposition key)
                contentLength (delivered stream)
          | Some e =>
              ProcessExit "application/gzip" (contentDisposition key)
                contentLength (delivered stream) e
          end
    end.

End Download.

(** ** Sample runs *)

Module Samples.
Import Backup.

(** A stand-in for [createFilename], after the file names of the usage
    notes. *)
Definition dated_filename (t : Z) (projectId dataset projectName : string)
  : string :=
  projectName +:+ "-2025-01-15-" +:+ dataset +:+ "-" +:+ projectId +:+ ".tar.gz".

Definition all_goes_well : Scenario :=
  mkScenario (Some "backups") (Some "AKIAEXAMPLE") (Some "secret")
             None 120 None
             5000 (Some (mkFile 4096 true)) None
             [(Some 5, Some 10); (None, Some 3); (Some 10, Some 10)]
             3000 (inr (Some "etag-1")).



(** [S3_BUCKET_NAME] is not set. *)
Definition no_bucket : Scenario :=
  mkScenario None (Some "AKIAEXAMPLE") (Some "secret")
             None 120 None
             5000 (Some (mkFile 4096 true)) None
             [] 3000 (inr (Some "etag-4")).


(** A request for project [abc123], dataset [production], of the site
    [acme]. *)
Definition request (sc : Scenario) : M string :=
  startBackup dated_filename sc "abc123" "production" "v2024-01-01" "token" "acme".

Definition job : string := "abc123-production-1000".

Definition archive : string := "acme-2025-01-15-production-abc123.tar.gz".

(** The process after the job of one request, made at time 1000 in a
    process that has just started, has run to its end. *)
Definition after_job (sc : Scenario) : World :=
  snd (request sc (at_rest ∅ ∅ 1000)).




End Samples.

(** ** The order of a listing *)

Module ListingOrder.
Import Listing.

(** [a] is not older than [b], by the parsed dates. *)
Definition not_older (a b : ArchiveSummary) : Prop :=
  Js.localeCompare (date b) (date a) <= 0.

(** The parsed date is not empty and is made of decimal digits: the
    dates that [localeCompare] orders as their character codes do. *)
Definition decimal_date (a : ArchiveSummary) : bool :=
  Js.truthy (date a) && Js.decimal (date a).

End ListingOrder.

(** ** Relations between the worlds before and after a program *)

Module BackupFrames.
Import Backup.

(** Every run of [m] relates the world it starts in to the world it ends
    in by [R]. *)
Definition keeps {A} (R : World -> World -> Prop) (m : M A) : Prop :=
  forall w, R w (snd (m w)).

(** Whenever [m] returns, it does so in a world that satisfies [Q]. *)
Definition returns_in {A} (Q : World -> Prop) (m : M A) : Prop :=
  forall w a w', m w = (Returned a, w') -> Q w'.

(** The entries of the other jobs are the same in [w'] as in [w]. *)
Definition untouched_elsewhere (backupId : string) (w w' : World) : Prop :=
  forall id', id' <> backupId -> backupStatus w' !! id' = backupStatus w !! id'.

(** The entry that [performBackup] writes last when all goes well. *)
Definition completed_entry (filename : string) (ETag : option string) (t : Z)
  : Entry :=
  mkEntry completed "Backup completed successfully" None None
          (Some filename) ETag t.

Definition exporting_entry (t : Z) : Entry :=
  mkEntry exporting "Exporting data" None None None None t.

Definition uploading_entry (t : Z) : Entry :=
  mkEntry uploading "Uploading to S3..." None None None None t.

(** The world in which the export stage starts, for the job [backupId]
    of a request made in [at_rest table fs t], once the connection test
    has taken [delay] milliseconds. *)
Definition connected (table : gmap string Entry) (fs : gmap string File)
    (t delay : Z) (backupId : string) : World :=
  mkWorld (<[backupId := pending_entry t]> table) fs (t + delay)
          [TableSet backupId (pending_entry t); ClientCreated; ProbeCalled;
           Responded backupId]
          None
          (Some (mkSnapshot (<[backupId := pending_entry t]> table) t)).

(** What the progress listener makes of the entry [e0]: an [uploading]
    entry with a percentage and the other fields of [e0]. *)
Definition progress_of (e0 e : Entry) : Prop :=
  status e = uploading /\ is_Some (progress e) /\
  startTime e = startTime e0 /\ error e = error e0 /\
  s3Location e = s3Location e0 /\ etag e = etag e0.

(** A progress event on which the listener acts: [loaded] and [total] are
    both there and neither is 0. *)
Definition effective (ev : option Z * option Z) : bool :=
  match ev with
  | (Some loaded, Some total) => negb (loaded =? 0) && negb (total =? 0)
  | _ => false
  end.

(** Nothing between [w] and [w'] ends the process. *)
Definition same_life (w w' : World) : Prop :=
  process_ended w' = process_ended w.

(** The local files once the export has run, for the output [filename]. *)
Definition files_after_export (sc : Scenario) (fs : gmap string File)
    (filename : string) : gmap string File :=
  match export_writes sc with
  | Some f => <[filename := f]> fs
  | None => fs
  end.

End BackupFrames.

(** ** The listing script: [listBackups] of [list-backups.js] *)

Module ListScript.
Import Listing.

(** The body of [backups.forEach]: a backup whose date has at least two
    parts between hyphens joins the group of its year and month. *)
Definition group_step (groupedBackups : gmap string (list ArchiveSummary))
    (backup : ArchiveSummary) : gmap string (list ArchiveSummary) :=
  if Js.truthy (date backup) then
    let dateParts := Js.split "-" (date backup) in
    if (2 <=? length dateParts)%nat then
      let year := nth 0 dateParts "" in
      let month := nth 1 dateParts "" in
      let monthYear := year +:+ "-" +:+ month in
      <[monthYear := (default [] (groupedBackups !! monthYear) ++ [backup])%list]>
        groupedBackups
    else groupedBackups
  else groupedBackups.

Definition groupBackups (backups : list ArchiveSummary)
  : gmap string (list ArchiveSummary) :=
  foldl group_step ∅ backups.

(** The group that a backup joins, if any. *)
Definition month_of (backup : ArchiveSummary) : option string :=
  if Js.truthy (date backup) then
    match Js.split "-" (date backup) with
    | year :: month :: _ => Some (year +:+ "-" +:+ month)
    | _ => None
    end
  else None.

(** What the script prints for a response of the listing route. *)
Inductive Printed : Type :=
| FetchFailed
| NoBackupFiles (totalCount : nat)
| Months (totalCount : nat) (groups : gmap string (list ArchiveSummary)).

(** [listBackups], given the response of [/api/backups/list]: a status
    other than 200 is reported as a failure, an empty listing as such, and
    any other listing by months. *)
Definition listBackups (response : ListResponse) : Printed :=
  match response with
  | ListError _ _ => FetchFailed
  | ListNone _ => NoBackupFiles 0
  | ListBackups backups totalCount _ _ =>
      match backups with
      | [] => NoBackupFiles totalCount
      | _ => Months totalCount (groupBackups backups)
      end
  end.

End ListScript.

(** ** The poller of the web page: [checkBackupStatus] of
       [CreateBackupButton.tsx] *)

Module Poller.
Import Backup.

(** What [fetch] of the status route gives: it throws, or there is a
    response with a status code and, if it parses, the body. *)
Inductive FetchResult : Type :=
| FetchThrows (e : Js.Thrown)
| FetchResponds (httpStatus : Z) (body : option StatusView).

(** The argument of [updateBackup]. *)
Record BackupUpdate : Type := mkUpdate {
  update_status : string;
  update_s3Location : string;
  update_errorMessage : option string
}.

Inductive Outcome : Type :=
| Recorded (update : BackupUpdate)
| CheckAgain (delay : Z).

(** [response.ok]. *)
Definition ok (httpStatus : Z) : bool :=
  (200 <=? httpStatus) && (httpStatus <=? 299).

(** [value || fallback] for an optional string. *)
Definition or_else (value : option string) (fallback : string) : string :=
  match value with
  | Some v => if Js.truthy v then v else fallback
  | None => fallback
  end.

(** One run of [checkBackupStatus]; [updateBackup_throws] is what the
    mutation does if it is called. *)
Definition checkBackupStatus (response : FetchResult)
    (updateBackup_throws : option Js.Thrown) : Outcome :=
  match response with
  | FetchThrows _ => CheckAgain 30000
  | FetchResponds httpStatus body =>
      if negb (ok httpStatus) then CheckAgain 30000
      else
        match body with
        | None => CheckAgain 30000
        | Some statusData =>
            match view_status statusData with
            | completed =>
                match updateBackup_throws with
                | None =>
                    Recorded (mkUpdate "success"
                                (or_else (view_s3Location statusData) "") None)
                | Some _ => CheckAgain 30000
                end
            | failed =>
                match updateBackup_throws with
                | None =>
                    Recorded (mkUpdate "error" ""
                                (Some (or_else (view_error statusData)
                                               "Unknown error")))
                | Some _ => CheckAgain 30000
                end
            | exporting | uploading => CheckAgain 30000
            | pending => CheckAgain 30000
            end
        end
  end.

(** The checks that follow one another, one for each answer at hand: the
    delays waited, and what was recorded in the end, if anything. *)
Fixpoint poll (answers : list (FetchResult * option Js.Thrown))
  : list Z * option BackupUpdate :=
  match answers with
  | [] => ([], None)
  | (response, updateBackup_throws) :: rest =>
      match checkBackupStatus response updateBackup_throws with
      | Recorded update => ([], Some update)
      | CheckAgain delay =>
          let '(delays, result) := poll rest in (delay :: delays, result)
      end
  end.

(** The status route as the page sees it. *)
Definition serve (response : StatusResponse) : FetchResult :=
  match response with
  | StatusNotFound httpStatus _ => FetchResponds httpStatus None
  | StatusFound view => FetchResponds 200 (Some view)
  end.


(** The answer is one at which the page stops asking. *)
Definition final (answer : FetchResult * option Js.Thrown) : bool :=
  match answer with
  | (FetchResponds httpStatus (Some statusData), None) =>
      ok httpStatus && terminal (view_status statusData)
  | _ => false
  end.

End Poller.

(** ** More sample runs *)

Module MoreSamples.
Import Backup.


(** The export fails and leaves a partial file that can be removed. *)
Definition export_fails : Scenario :=
  mkScenario (Some "backups") (Some "AKIAEXAMPLE") (Some "secret")
             None 120 None
             5000 (Some (mkFile 10 true)) (Some (Js.ErrorObj "boom"))
             [] 3000 (inr (Some "etag-7")).


(** All goes well, but the local file cannot be removed. *)
Definition file_stays : Scenario :=
  mkScenario (Some "backups") (Some "AKIAEXAMPLE") (Some "secret")
             None 120 None
             5000 (Some (mkFile 4096 false)) None
             [] 3000 (inr (Some "etag-8")).

(** The export library rejects with [undefined]. *)
Definition export_rejects_with_nothing : Scenario :=
  mkScenario (Some "backups") (Some "AKIAEXAMPLE") (Some "secret")
             None 120 None
             5000 None (Some (Js.NonError true))
             [] 3000 (inr (Some "etag-9")).

(** A status table with one entry, in the middle of an upload. *)
Definition uploading_world : World :=
  mkWorld {[ Samples.job := mkEntry uploading "Uploading to S3..." None None
                                    None None 6120 ]}
          ∅ 7000 [] None None.

End MoreSamples.

(** * Theorems *)

(** ** Listing *)

Module ListingFacts.
Import Listing ListingExamples.

Lemma sort_insert_perm {A} (cmp : A -> A -> Z) (x : A) (l : list A) :
  Js.sort_insert cmp x l ≡ₚ x :: l.
Proof.
  induction l as [|y l IH]; simpl; [done|].
  destruct (cmp x y <=? 0); [done|].
  rewrite IH. apply Permutation_swap.
Qed.

Lemma sort_perm {A} (cmp : A -> A -> Z) (l : list A) : Js.sort cmp l ≡ₚ l.
Proof.
  induction l as [|x l IH]; simpl; [done|].
  unfold Js.sort in *. simpl. rewrite sort_insert_perm. by rewrite IH.
Qed.

Lemma backupFiles_elem (contents : list S3Object) (obj : S3Object) :
  obj ∈ contents -> is_backup_file obj = true ->
  summarize obj ∈ backupFiles contents.
Proof.
  intros Hin Hf. unfold backupFiles. rewrite sort_perm.
  apply list_elem_of_fmap. exists obj. split; [done|].
  apply list_elem_of_filter. split; [|done]. by rewrite Hf.
Qed.

Lemma endsWith_truthy (k suffix : string) :
  Js.endsWith k suffix = true -> Js.truthy suffix = true -> Js.truthy k = true.
Proof.
  destruct k; simpl; [|done].
  destruct suffix; simpl; [done|]. intros H _. discriminate H.
Qed.

Lemma summarize_short (obj : S3Object) (k : string) :
  Key obj = Some k -> (length (Js.split "-" k) < 4)%nat ->
  key (summarize obj) = k /\ projectName (summarize obj) = "" /\
  date (summarize obj) = "" /\ dataset (summarize obj) = "" /\
  projectId (summarize obj) = "".
Proof.
  intros HK Hlen. unfold summarize. rewrite HK.
  change (default "" (Some k)) with k.
  destruct (4 <=? length (Js.split "-" k))%nat eqn:E.
  - apply Nat.leb_le in E. lia.
  - repeat split.
Qed.

(** C1, as the code has it: for the bucket that holds exactly
    [acme-2025-01-15-production-abc123.tar.gz] and
    [acme-2025-02-01-staging-def456.tar.gz], in either order of the storage
    listing, [listArchives] returns both entries but takes the day of the
    month for the date (["15"] and ["01"]), so that the January entry comes
    first and the February entry last. *)
Theorem listArchives_two_archives_january_first :
  listArchives (Some "backups") None (bucket_of [january; february])
  = ListBackups [january_summary; february_summary] 2 "backups" "ca-central-1" /\
  listArchives (Some "backups") None (bucket_of [february; january])
  = ListBackups [january_summary; february_summary] 2 "backups" "ca-central-1" /\
  key january_summary = "acme-2025-01-15-production-abc123.tar.gz" /\
  date january_summary = "15" /\
  key february_summary = "acme-2025-02-01-staging-def456.tar.gz" /\
  date february_summary = "01".
Proof. repeat split. Qed.

(** C10: an object whose key ends in [.tar.gz] and has fewer than four
    segments between hyphens is in the output of [listArchives], with
    [projectName], [date], [dataset] and [projectId] all empty. *)
Theorem listArchives_keeps_short_keys
    (bucket : string) (region : option string)
    (listObjects : string -> ListObjectsResult)
    (contents : list S3Object) (obj : S3Object) (k : string) :
  Js.truthy bucket = true ->
  listObjects bucket = ListResolves (Some contents) ->
  obj ∈ contents ->
  Key obj = Some k ->
  Js.endsWith k ".tar.gz" = true ->
  (length (Js.split "-" k) < 4)%nat ->
  exists backups r,
    listArchives (Some bucket) region listObjects
    = ListBackups backups (length backups) bucket r /\
    exists a, a ∈ backups /\ key a = k /\ projectName a = "" /\ date a = "" /\
              dataset a = "" /\ projectId a = "".
Proof.
  intros Hb Hlist Hin HK Hsuf Hlen.
  unfold listArchives. simpl. rewrite Hb, Hlist. simpl.
  eexists _, _. split; [reflexivity|].
  exists (summarize obj). split.
  - apply backupFiles_elem; [done|].
    unfold is_backup_file. rewrite HK, Hsuf.
    by rewrite (endsWith_truthy k ".tar.gz").
  - by apply summarize_short.
Qed.

Lemma listArchives_keeps_short_keys_witness :
  exists backups r,
    listArchives (Some "backups") None
      (bucket_of [january; mkS3Object (Some "site-2025.tar.gz") None None])
    = ListBackups backups (length backups) "backups" r /\
    exists a, a ∈ backups /\ key a = "site-2025.tar.gz" /\ projectName a = "" /\
              date a = "" /\ dataset a = "" /\ projectId a = "".
Proof.
  apply (listArchives_keeps_short_keys "backups" None
           (bucket_of [january; mkS3Object (Some "site-2025.tar.gz") None None])
           [january; mkS3Object (Some "site-2025.tar.gz") None None]
           (mkS3Object (Some "site-2025.tar.gz") None None) "site-2025.tar.gz").
  - reflexivity.
  - reflexivity.
  - apply list_elem_of_In. simpl. right. left. reflexivity.
  - reflexivity.
  - reflexivity.
  - simpl. lia.
Defined.

End ListingFacts.

(** ** The backup job *)

Module BackupFacts.
Import Backup.
Local Open Scope js_scope.
Local Open Scope list_scope.

Ltac run_step :=
  cbv beta iota zeta delta
    [bind ret throw try_catch when_ modify log Date_now backupStatus_set
     backupStatus_get yield_to_caller elapse await attempt settle
     existsSync statSync unlinkSync createFilename_now createClient
     client_fetch exportDataset];
  cbn [backupStatus files now trace caller returned negb fst snd].

Lemma writes_to_app (id : string) (tr1 tr2 : list Event) :
  writes_to id (tr1 ++ tr2) = writes_to id tr1 ++ writes_to id tr2.
Proof.
  induction tr1 as [|ev tr1 IH]; simpl; [done|].
  destruct ev; try done. destruct (String.eqb _ _); simpl; by rewrite IH.
Qed.

Lemma export_calls_app (tr1 tr2 : list Event) :
  export_calls (tr1 ++ tr2) = (export_calls tr1 + export_calls tr2)%nat.
Proof.
  induction tr1 as [|ev tr1 IH]; simpl; [done|].
  destruct ev; simpl; by rewrite ?IH.
Qed.

Lemma upload_calls_app (tr1 tr2 : list Event) :
  upload_calls (tr1 ++ tr2) = (upload_calls tr1 + upload_calls tr2)%nat.
Proof.
  induction tr1 as [|ev tr1 IH]; simpl; [done|].
  destruct ev; simpl; by rewrite ?IH.
Qed.


(** *** Programs that write no terminal entry *)

Lemma calm_refl (id : string) (w : World) : calm id w w.
Proof.
  split; [done|]. exists []. by rewrite app_nil_r.
Qed.

Lemma calm_trans (id : string) (w1 w2 w3 : World) :
  calm id w1 w2 -> calm id w2 w3 -> calm id w1 w3.
Proof.
  intros [Hc1 (evs1 & Ht1 & Hn1)] [Hc2 (evs2 & Ht2 & Hn2)]. split.
  - intros Hnone. destruct (Hc1 Hnone) as [Hc Hr].
    destruct (Hc2 Hc) as [? ?]. split; congruence.
  - exists (evs1 ++ evs2). rewrite Ht2, Ht1, app_assoc. split; [done|].
    rewrite writes_to_app. by apply Forall_app.
Qed.

Lemma calm_crowned (id : string) (w1 w2 w3 : World) :
  calm id w1 w2 -> crowned id w2 w3 -> crowned id w1 w3.
Proof.
  intros [Hc1 (evs1 & Ht1 & Hn1)] [Hc2 (evs2 & c & Ht2 & Hn2 & Hst)]. split.
  - intros Hnone. destruct (Hc1 Hnone) as [Hc Hr].
    destruct (Hc2 Hc) as [? ?]. split; congruence.
  - exists (evs1 ++ evs2), c. rewrite Ht2, Ht1, <- !app_assoc.
    split; [done|]. split; [|done].
    rewrite writes_to_app. by apply Forall_app.
Qed.

Lemma quiet_ret {A} (id : string) (a : A) : quiet id (ret a).
Proof. intros w. apply calm_refl. Qed.

Lemma quiet_throw {A} (id : string) (e : Js.Thrown) : quiet id (@throw A e).
Proof. intros w. apply calm_refl. Qed.

Lemma quiet_bind {A B} (id : string) (m : M A) (k : A -> M B) :
  quiet id m -> (forall a, quiet id (k a)) -> quiet id (bind m k).
Proof.
  intros Hm Hk w. unfold bind. specialize (Hm w).
  destruct (m w) as [[a|e] w1]; simpl in *; [|done].
  eapply calm_trans; [exact Hm | apply Hk].
Qed.

Lemma quiet_try_catch {A} (id : string) (m : M A) (h : Js.Thrown -> M A) :
  quiet id m -> (forall e, quiet id (h e)) -> quiet id (try_catch m h).
Proof.
  intros Hm Hh w. unfold try_catch. specialize (Hm w).
  destruct (m w) as [[a|e] w1]; simpl in *; [done|].
  eapply calm_trans; [exact Hm | apply Hh].
Qed.

Lemma quiet_when (id : string) (b : bool) (m : M unit) :
  quiet id m -> quiet id (when_ b m).
Proof. destruct b; simpl; [done|]. intros _. apply quiet_ret. Qed.

Lemma quiet_for_each {A} (id : string) (f : A -> M unit) (l : list A) :
  (forall x, quiet id (f x)) -> quiet id (for_each f l).
Proof.
  intros Hf. induction l as [|x l IH]; simpl.
  - apply quiet_ret.
  - apply quiet_bind; [apply Hf | intros _; exact IH].
Qed.

Lemma quiet_read {A} (id : string) (f : World -> Result A) :
  quiet id (fun w => (f w, w)).
Proof. intros w. apply calm_refl. Qed.

Lemma quiet_log (id : string) (ev : Event) :
  Forall nonterminal (writes_to id [ev]) -> quiet id (log ev).
Proof.
  intros Hev w. split; simpl; [done|]. by exists [ev].
Qed.

Lemma quiet_set (id id' : string) (entry : Entry) :
  nonterminal entry -> quiet id (backupStatus_set id' entry).
Proof.
  intros Hn w. split; simpl; [done|].
  exists [TableSet id' entry]. split; [done|]. simpl.
  destruct (String.eqb id' id); by repeat constructor.
Qed.

Lemma quiet_yield (id : string) : quiet id yield_to_caller.
Proof.
  intros w. unfold yield_to_caller.
  destruct (caller w) as [c|] eqn:Hc; simpl; [|apply calm_refl].
  split; simpl; [congruence|]. by exists [Responded c].
Qed.

Lemma quiet_elapse (id : string) (delay : Z) : quiet id (elapse delay).
Proof. intros w. split; simpl; [done|]. exists []. by rewrite app_nil_r. Qed.

Lemma quiet_settle (id : string) (outcome : option Js.Thrown) :
  quiet id (settle outcome).
Proof. destruct outcome; [apply quiet_throw | apply quiet_ret]. Qed.

Lemma quiet_unlinkSync (id path : string) : quiet id (unlinkSync path).
Proof.
  intros w. unfold unlinkSync.
  destruct (files w !! path) as [[sz []]|]; simpl; try apply calm_refl.
  split; simpl; [done|]. by exists [Unlinked path].
Qed.

Lemma quiet_statSync (id path : string) : quiet id (statSync path).
Proof.
  intros w. unfold statSync. destruct (files w !! path); apply calm_refl.
Qed.

Create HintDb quiet.
#[local] Hint Resolve quiet_ret quiet_throw quiet_when quiet_read quiet_yield
  quiet_elapse quiet_settle quiet_unlinkSync quiet_statSync : quiet.
#[local] Hint Extern 2 (quiet _ (bind _ _)) =>
  apply quiet_bind; [|intros ?] : quiet.
#[local] Hint Extern 2 (quiet _ (try_catch _ _)) =>
  apply quiet_try_catch; [|intros ?] : quiet.
#[local] Hint Extern 2 (quiet _ (log _)) =>
  apply quiet_log; simpl; constructor : quiet.
#[local] Hint Extern 2 (quiet _ (backupStatus_set _ _)) =>
  apply quiet_set; reflexivity : quiet.

Lemma quiet_createClient sc id : quiet id (createClient sc).
Proof. unfold createClient. auto with quiet. Qed.

Lemma quiet_test_connection sc id : quiet id (test_connection sc).
Proof.
  unfold test_connection, client_fetch, await. auto 10 with quiet.
Qed.

Lemma quiet_validate_environment sc id : quiet id (validate_environment sc).
Proof. unfold validate_environment. auto 10 with quiet. Qed.

Lemma quiet_exportDataset sc id filename : quiet id (exportDataset sc filename).
Proof.
  unfold exportDataset, await.
  repeat (apply quiet_bind; [|intros ?]); auto with quiet.
  intros w. destruct (export_writes sc); [|apply calm_refl].
  split; simpl; [done|]. exists []. by rewrite app_nil_r.
Qed.

Lemma quiet_onProgress id id' ev : quiet id (onProgress id' ev).
Proof.
  unfold onProgress. destruct ev as [[loaded|] [total|]]; auto with quiet.
  destruct (negb (loaded =? 0) && negb (total =? 0)); auto with quiet.
  apply quiet_bind; [apply quiet_read|]. intros [o|]; auto with quiet.
Qed.

Lemma quiet_upload_done sc id id' filename :
  quiet id (upload_done sc id' filename).
Proof.
  unfold upload_done.
  repeat (apply quiet_bind; [|intros ?]); auto with quiet.
  - apply quiet_for_each. intros ev. apply quiet_onProgress.
  - destruct (upload_result sc); auto with quiet.
Qed.

#[local] Hint Resolve quiet_createClient quiet_test_connection
  quiet_validate_environment quiet_exportDataset quiet_upload_done : quiet.

Lemma crowning_bind {A B} (id : string) (m : M A) (k : A -> M B) :
  quiet id m -> (forall a, crowning id (k a)) -> crowning id (bind m k).
Proof.
  intros Hm Hk w. unfold bind. specialize (Hm w).
  destruct (m w) as [[a|e] w1]; simpl in *; [|done].
  specialize (Hk a w1). destruct (k a w1) as [[b|e] w2].
  - eapply calm_crowned; eauto.
  - eapply calm_trans; eauto.
Qed.

Lemma crowning_set_completed (id : string) (entry : Entry) :
  status entry = completed -> crowning id (backupStatus_set id entry).
Proof.
  intros Hst w. split; simpl; [done|]. exists [], entry. by repeat constructor.
Qed.

(** The stage after the connection test writes no terminal entry, except
    for the [completed] one with which it returns. *)
Lemma crowning_export_and_upload cf sc id p d n :
  crowning id (export_and_upload cf sc id p d n).
Proof.
  unfold export_and_upload, createFilename_now, Date_now, existsSync.
  repeat lazymatch goal with
         | |- crowning _ (backupStatus_set _ _) => fail
         | |- _ => apply crowning_bind; [auto with quiet|intros ?]
         end.
  by apply crowning_set_completed.
Qed.

Lemma crowning_performBackup_try cf sc id p d a tok n :
  crowning id (performBackup_try cf sc id p d a tok n).
Proof.
  unfold performBackup_try.
  do 3 (apply crowning_bind; [auto with quiet|intros ?]).
  apply crowning_export_and_upload.
Qed.

(** *** The [catch] block *)

Lemma performBackup_catch_spec cf id p d n error w :
  exists w' evs,
    performBackup_catch cf id p d n error w = (Threw error, w') /\
    cleaned (cf (now w) p d n) w w' evs /\
    trace w' = trace w ++ evs ++ [TableSet id (failure_entry error (now w))] /\
    backupStatus w' = <[id := failure_entry error (now w)]> (backupStatus w) /\
    now w' = now w /\ caller w' = caller w /\ returned w' = returned w.
Proof.
  unfold performBackup_catch, cleaned. destruct w as [tbl fs t tr c rt]. run_step.
  destruct (fs !! cf t p d n) as [[sz del]|] eqn:Hf; run_step.
  - rewrite Hf. destruct del; run_step; rewrite Hf; run_step.
    + eexists _, _. split; [reflexivity|]. simpl.
      rewrite <- app_assoc. repeat split.
    + eexists _, _. split; [reflexivity|]. simpl.
      rewrite <- app_assoc. repeat split. eauto.
  - eexists _, _. split; [reflexivity|]. simpl. repeat split.
Qed.

Lemma cleaned_silent path w w' evs (id : string) :
  cleaned path w w' evs ->
  writes_to id evs = [] /\ export_calls evs = 0%nat /\ upload_calls evs = 0%nat.
Proof.
  unfold cleaned. destruct (files w !! path) as [[sz []]|].
  - by intros [_ ->].
  - by intros [_ [ce ->]].
  - by intros [_ ->].
Qed.

(** *** The route, step by step *)

Lemma yield_to_caller_spec (id : string) (w : World) :
  exists w' evs,
    yield_to_caller w = (Returned tt, w') /\
    trace w' = trace w ++ evs /\ writes_to id evs = [] /\
    export_calls evs = 0%nat /\ upload_calls evs = 0%nat /\
    backupStatus w' = backupStatus w /\ now w' = now w /\
    files w' = files w /\ caller w' = None /\
    returned w' = match caller w with
                  | Some _ => Some (snapshot w)
                  | None => returned w
                  end.
Proof.
  unfold yield_to_caller. destruct w as [tbl fs t tr [c|] rt]; simpl.
  - eexists _, [Responded c]. by repeat split.
  - eexists _, []. rewrite app_nil_r. by repeat split.
Qed.

Lemma on_background_failure_spec (id : string) (err : Js.Thrown) (w : World) :
  exists w' evs,
    on_background_failure id err w = (Returned tt, w') /\
    trace w' = trace w ++ evs /\
    now w' = now w /\ files w' = files w /\
    caller w' = caller w /\ returned w' = returned w /\
    ((err = Js.NonError true /\ evs = [UnhandledRejection] /\
      backupStatus w' = backupStatus w) \/
     (evs = [TableSet id (failure_entry err (now w))] /\
      backupStatus w' = <[id := failure_entry err (now w)]> (backupStatus w))).
Proof.
  destruct w as [tbl fs t tr c rt].
  destruct err as [m|[]]; unfold on_background_failure; run_step;
    eexists _, _; (split; [reflexivity|]); simpl; repeat split; auto.
Qed.

Lemma startBackup_unfold cf sc p d a tok n table fs t :
  startBackup cf sc p d a tok n (at_rest table fs t)
  = let id := make_backupId p d t in
    let '(outcome, w1) := performBackup cf sc id p d a tok n (started table fs t id) in
    route_tail id outcome w1.
Proof.
  unfold startBackup, route_tail, at_rest, started. run_step.
  by destruct (performBackup _ _ _ _ _ _ _ _ _) as [outcome w1].
Qed.

Lemma route_tail_spec (id : string) (outcome : Result unit) (w1 : World) :
  exists w3 evs,
    route_tail id outcome w1 = (Returned id, w3) /\
    trace w3 = trace w1 ++ evs /\
    export_calls evs = 0%nat /\ upload_calls evs = 0%nat /\
    now w3 = now w1 /\ files w3 = files w1 /\
    returned w3 = match caller w1 with
                  | Some _ => Some (snapshot w1)
                  | None => returned w1
                  end /\
    match outcome with
    | Returned _ =>
        writes_to id evs = [] /\ backupStatus w3 = backupStatus w1
    | Threw err =>
        (err = Js.NonError true /\ writes_to id evs = [] /\
         backupStatus w3 = backupStatus w1) \/
        (writes_to id evs = [failure_entry err (now w1)] /\
         backupStatus w3 = <[id := failure_entry err (now w1)]> (backupStatus w1))
    end.
Proof.
  unfold route_tail.
  destruct (yield_to_caller_spec id w1)
    as (w2 & evs2 & Hy & Ht2 & Hw2 & He2 & Hu2 & Htbl2 & Hnow2 & Hfs2 & Hc2 & Hr2).
  unfold bind at 1. rewrite Hy. destruct outcome as [[]|err].
  - exists w2, evs2. by repeat split.
  - destruct (on_background_failure_spec id err w2)
      as (w3 & evs3 & Hb & Ht3 & Hnow3 & Hfs3 & Hc3 & Hr3 & Hcases).
    unfold bind, ret. rewrite Hb.
    exists w3, (evs2 ++ evs3). split; [done|].
    split; [by rewrite Ht3, Ht2, app_assoc|].
    rewrite export_calls_app, upload_calls_app, writes_to_app, Hw2, He2, Hu2.
    rewrite Hnow3, Hfs3, Hr3, Hnow2, Hfs2, Hr2, <- Htbl2.
    destruct Hcases as [(-> & -> & ->) | (-> & ->)]; simpl.
    + repeat split. left. by repeat split.
    + rewrite String.eqb_refl, Hnow2. repeat split. by right.
Qed.

(** The route from any state of the process: the first write, then
    [performBackup], then what is left of the route. *)
Lemma startBackup_unfold_anywhere cf sc p d a tok n tbl fs t tr c rt :
  startBackup cf sc p d a tok n (mkWorld tbl fs t tr c rt)
  = let id := make_backupId p d t in
    let '(outcome, w1) :=
      performBackup cf sc id p d a tok n
        (mkWorld (<[id := pending_entry t]> tbl) fs t
                 (tr ++ [TableSet id (pending_entry t)]) (Some id) rt) in
    route_tail id outcome w1.
Proof.
  unfold startBackup, route_tail. run_step.
  by destruct (performBackup _ _ _ _ _ _ _ _ _) as [outcome w1].
Qed.

(** C2, amended: whatever the process has done before, as long as it
    lives, the writes that one invocation makes for its job are a [pending]
    entry and further entries in non-terminal states, followed by either
    one [completed] entry, after which the invocation writes nothing more
    for the job, or one [failed] entry, after which it writes at most one
    more entry, again [failed] and with the same error. The entry is not
    closed to another invocation: one that is given the same identifier
    starts with [pending] again, whatever the table holds for it. *)
Theorem startBackup_writes_close cf sc p d a tok n (w : World) :
  process_ended w = false ->
  exists w' evs pre closing,
    startBackup cf sc p d a tok n w
    = (Returned (make_backupId p d (now w)), w') /\
    trace w' = trace w ++ evs /\
    writes_to (make_backupId p d (now w)) evs
    = pending_entry (now w) :: pre ++ closing /\
    Forall nonterminal pre /\ closes closing.
Proof.
  intros _. destruct w as [tbl fs t tr c0 rt]. cbn [now trace].
  rewrite startBackup_unfold_anywhere. cbv zeta.
  set (id := make_backupId p d t).
  set (w0 := mkWorld _ _ _ _ _ _).
  unfold performBackup, try_catch.
  pose proof (crowning_performBackup_try cf sc id p d a tok n w0) as Htry.
  destruct (performBackup_try _ _ _ _ _ _ _ _ _) as [[[]|err] w1].
  - destruct Htry as [_ (evs & c & Ht & Hn & Hc)].
    destruct (route_tail_spec id (Returned tt) w1)
      as (w3 & evs3 & -> & Ht3 & _ & _ & _ & _ & _ & Hw3 & _).
    exists w3, (TableSet id (pending_entry t) :: evs ++ [TableSet id c] ++ evs3),
      (writes_to id evs), [c].
    split; [done|]. split; [|split; [|split]].
    + rewrite Ht3, Ht. subst w0. cbn [trace].
      by rewrite <- !app_assoc.
    + cbn [writes_to]. rewrite String.eqb_refl, !writes_to_app, Hw3.
      cbn [writes_to]. by rewrite String.eqb_refl, app_nil_r.
    + done.
    + by constructor.
  - destruct Htry as [_ (evs & Ht & Hn)].
    destruct (performBackup_catch_spec cf id p d n err w1)
      as (w1' & evs1 & -> & Hclean & Ht1 & _ & Hnow1 & _).
    destruct (cleaned_silent _ _ _ _ id Hclean) as (Hw1 & _).
    destruct (route_tail_spec id (Threw err) w1')
      as (w3 & evs3 & -> & Ht3 & _ & _ & _ & _ & _ & Hcases).
    exists w3,
      (TableSet id (pending_entry t)
       :: evs ++ (evs1 ++ [TableSet id (failure_entry err (now w1))]) ++ evs3),
      (writes_to id evs).
    assert (Hwrites :
      writes_to id (TableSet id (pending_entry t)
        :: evs ++ (evs1 ++ [TableSet id (failure_entry err (now w1))]) ++ evs3)
      = pending_entry t
        :: writes_to id evs ++ failure_entry err (now w1) :: writes_to id evs3).
    { cbn [writes_to]. rewrite String.eqb_refl, !writes_to_app, Hw1.
      cbn [writes_to]. by rewrite String.eqb_refl. }
    assert (Htrace : trace w3
      = tr ++ TableSet id (pending_entry t)
           :: evs ++ (evs1 ++ [TableSet id (failure_entry err (now w1))]) ++ evs3).
    { rewrite Ht3, Ht1, Ht. subst w0. cbn [trace]. by rewrite <- !app_assoc. }
    destruct Hcases as [(_ & Hw3 & _) | (Hw3 & _)]; rewrite Hw3 in Hwrites.
    + eexists. split; [done|]. split; [exact Htrace|]. split; [exact Hwrites|].
      split; [done|]. by constructor.
    + eexists. split; [done|]. split; [exact Htrace|]. split; [exact Hwrites|].
      split; [done|]. by constructor.
Qed.

(** *** The state at the instant the route answers *)

Lemma performBackup_catch_returned cf id p d n err w :
  exists w',
    performBackup_catch cf id p d n err w = (Threw err, w') /\
    backupStatus w' = <[id := failure_entry err (now w)]> (backupStatus w) /\
    now w' = now w /\ caller w' = caller w /\ returned w' = returned w.
Proof.
  destruct (performBackup_catch_spec cf id p d n err w)
    as (w' & evs & ? & _ & _ & ? & ? & ? & ?). eauto 10.
Qed.

Lemma status_at_return cf sc p d a tok n table fs t :
  exists w snap view,
    startBackup cf sc p d a tok n (at_rest table fs t)
    = (Returned (make_backupId p d t), w) /\
    returned w = Some snap /\
    snap_now snap = t /\
    getStatus (make_backupId p d t) snap = StatusFound view /\
    view_status view
    = if storage_configured sc && client_created sc then pending else failed.
Proof.
  rewrite startBackup_unfold. cbv zeta.
  set (id := make_backupId p d t).
  unfold performBackup, try_catch, performBackup_try, validate_environment,
    storage_configured, client_created, started.
  assert (Hsync : forall err tr,
    exists w snap view,
      (let '(outcome, w1) :=
         performBackup_catch cf id p d n err
           (mkWorld (<[id := pending_entry t]> table) fs t tr (Some id) None) in
       route_tail id outcome w1) = (Returned id, w) /\
      returned w = Some snap /\ snap_now snap = t /\
      getStatus id snap = StatusFound view /\ view_status view = failed).
  { intros err tr.
    destruct (performBackup_catch_returned cf id p d n err
                (mkWorld (<[id := pending_entry t]> table) fs t tr (Some id) None))
      as (w1 & -> & Htbl & Hnow & Hc & Hr). simpl in *.
    destruct (route_tail_spec id (Threw err) w1)
      as (w3 & evs3 & -> & _ & _ & _ & _ & _ & Hr3 & _).
    rewrite Hc in Hr3.
    exists w3. eexists _, _. split; [done|].
    split; [exact Hr3|]. split; [done|].
    unfold getStatus, snapshot. simpl. rewrite Htbl, lookup_insert_eq.
    split; reflexivity. }
  run_step.
  destruct (Js.truthy_opt (S3_BUCKET_NAME sc)); run_step; [|apply Hsync].
  destruct (Js.truthy_opt (AWS_ACCESS_KEY_ID sc)); run_step; [|apply Hsync].
  destruct (Js.truthy_opt (AWS_SECRET_ACCESS_KEY sc)); run_step; [|apply Hsync].
  unfold test_connection. run_step.
  destruct (createClient_throws sc); run_step; [apply Hsync|].
  set (snap := mkSnapshot (<[id := pending_entry t]> table) t).
  assert (Hview : exists view,
            getStatus id snap = StatusFound view /\ view_status view = pending).
  { unfold getStatus, snap. simpl. rewrite lookup_insert_eq. eauto. }
  destruct Hview as (view & Hget & Hview).
  destruct (probe_throws sc) as [probeError|]; run_step.
  - match goal with
    | |- context [performBackup_catch cf id p d n ?e ?w] =>
        destruct (performBackup_catch_returned cf id p d n e w)
          as (w1 & -> & _ & _ & Hc & Hr);
        destruct (route_tail_spec id (Threw e) w1)
          as (w3 & evs3 & -> & _ & _ & _ & _ & _ & Hr3 & _)
    end.
    simpl in Hc, Hr. rewrite Hc, Hr in Hr3.
    exists w3, snap, view. by repeat split.
  - match goal with
    | |- context [export_and_upload cf sc id p d n ?w] =>
        pose proof (crowning_export_and_upload cf sc id p d n w) as Hrest;
        destruct (export_and_upload cf sc id p d n w) as [[[]|err] w1]
    end.
    + destruct Hrest as [Hkeep _]. destruct (Hkeep eq_refl) as [Hc Hr].
      simpl in Hr.
      destruct (route_tail_spec id (Returned tt) w1)
        as (w3 & evs3 & -> & _ & _ & _ & _ & _ & Hr3 & _).
      rewrite Hc, Hr in Hr3.
      exists w3, snap, view. by repeat split.
    + destruct Hrest as [Hkeep _]. destruct (Hkeep eq_refl) as [Hc Hr].
      simpl in Hr.
      destruct (performBackup_catch_returned cf id p d n err w1)
        as (w1' & -> & _ & _ & Hc' & Hr').
      rewrite Hc in Hc'. rewrite Hr in Hr'.
      destruct (route_tail_spec id (Threw err) w1')
        as (w3 & evs3 & -> & _ & _ & _ & _ & _ & Hr3 & _).
      rewrite Hc', Hr' in Hr3.
      exists w3, snap, view. by repeat split.
Qed.

Lemma performBackup_extends cf sc id p d a tok n w :
  exists outcome w' evs,
    performBackup cf sc id p d a tok n w = (outcome, w') /\
    trace w' = trace w ++ evs.
Proof.
  unfold performBackup, try_catch.
  pose proof (crowning_performBackup_try cf sc id p d a tok n w) as Htry.
  destruct (performBackup_try _ _ _ _ _ _ _ _ _) as [[[]|err] w1].
  - destruct Htry as [_ (evs & c & Ht & _)]. eauto.
  - destruct Htry as [_ (evs & Ht & _)].
    destruct (performBackup_catch_spec cf id p d n err w1)
      as (w1' & evs1 & -> & _ & Ht1 & _).
    eexists _, _, _. split; [done|]. by rewrite Ht1, Ht, <- app_assoc.
Qed.

Lemma pending_is_written_first cf sc p d a tok n table fs t :
  exists w rest,
    startBackup cf sc p d a tok n (at_rest table fs t)
    = (Returned (make_backupId p d t), w) /\
    trace w = TableSet (make_backupId p d t) (pending_entry t) :: rest.
Proof.
  rewrite startBackup_unfold. cbv zeta.
  set (id := make_backupId p d t).
  destruct (performBackup_extends cf sc id p d a tok n (started table fs t id))
    as (outcome & w1 & evs & -> & Ht).
  destruct (route_tail_spec id outcome w1) as (w3 & evs3 & -> & Ht3 & _).
  exists w3. eexists. split; [done|]. rewrite Ht3, Ht. reflexivity.
Qed.

(** C4, amended: [startBackup] writes the [pending] entry for the
    identifier it returns before anything else. A status query at the
    instant it answers finds that job; it reports [pending] when the bucket
    name and both credentials are set and the content-store client can be
    created, and [failed] otherwise. *)
Theorem startBackup_status_when_it_returns cf sc p d a tok n table fs t :
  exists w rest snap view,
    startBackup cf sc p d a tok n (at_rest table fs t)
    = (Returned (make_backupId p d t), w) /\
    trace w = TableSet (make_backupId p d t) (pending_entry t) :: rest /\
    returned w = Some snap /\
    snap_now snap = t /\
    getStatus (make_backupId p d t) snap = StatusFound view /\
    view_status view
    = if storage_configured sc && client_created sc then pending else failed.
Proof.
  destruct (pending_is_written_first cf sc p d a tok n table fs t)
    as (w & rest & Hrun & Htrace).
  destruct (status_at_return cf sc p d a tok n table fs t)
    as (w' & snap & view & Hrun' & Hret & Hnow & Hget & Hview).
  rewrite Hrun in Hrun'. injection Hrun' as <-.
  exists w, rest, snap, view. by repeat split.
Qed.



(** *** The check of the export file *)

Lemma fail_and_finish cf id p d n err w1 :
  exists w3 evs,
    (let '(outcome, w1') := performBackup_catch cf id p d n err w1 in
     route_tail id outcome w1') = (Returned id, w3) /\
    trace w3 = trace w1 ++ evs /\
    export_calls evs = 0%nat /\ upload_calls evs = 0%nat /\
    backupStatus w3 !! id = Some (failure_entry err (now w1)).
Proof.
  destruct (performBackup_catch_spec cf id p d n err w1)
    as (w2 & evs & -> & Hclean & Ht & Htbl & Hnow & _).
  destruct (cleaned_silent _ _ _ _ id Hclean) as (_ & Hex & Hup).
  destruct (route_tail_spec id (Threw err) w2)
    as (w3 & evs3 & -> & Ht3 & Hex3 & Hup3 & _ & _ & _ & Hcases).
  exists w3, (evs ++ [TableSet id (failure_entry err (now w1))] ++ evs3).
  split; [done|]. split; [by rewrite Ht3, Ht, <- !app_assoc|].
  rewrite !export_calls_app, !upload_calls_app, Hex, Hex3, Hup, Hup3.
  repeat split.
  destruct Hcases as [(_ & _ & ->) | (_ & ->)];
    by rewrite ?Htbl, ?Hnow, lookup_insert_eq.
Qed.

Lemma upload_calls_writes (id : string) (entries : list Entry) :
  upload_calls (map (TableSet id) entries) = 0%nat.
Proof. induction entries; simpl; auto. Qed.


(** *** Job identifiers *)

Lemma split_nonempty (c : ascii) (s : string) : Js.split c s <> [].
Proof.
  destruct s as [|x s]; simpl; [done|].
  destruct (Ascii.eqb x c); [done|]. by destruct (Js.split c s).
Qed.

Lemma split_app_sep (c : ascii) (s1 s2 : string) :
  Js.split c (s1 +:+ String c s2) = Js.split c s1 ++ Js.split c s2.
Proof.
  induction s1 as [|x s1 IH]; simpl.
  - by rewrite Ascii.eqb_refl.
  - destruct (Ascii.eqb x c); [by rewrite IH|].
    rewrite IH. pose proof (split_nonempty c s1).
    by destruct (Js.split c s1).
Qed.

Lemma split_without_sep (c : ascii) (s : string) :
  Js.contains c s = false -> Js.split c s = [s].
Proof.
  induction s as [|x s IH]; simpl; [done|].
  destruct (Ascii.eqb x c); simpl; [done|]. intros H. by rewrite IH.
Qed.

Lemma last_app_nonempty {A} (l1 l2 : list A) (dflt : A) :
  l2 <> [] -> List.last (l1 ++ l2) dflt = List.last l2 dflt.
Proof.
  intros H. induction l1 as [|x l1 IH]; [done|].
  simpl. rewrite IH. destruct (l1 ++ l2) eqn:E; [|done].
  apply app_eq_nil in E as [_ ->]. done.
Qed.

(** The text after the last separator. *)
Lemma last_segment_app (c : ascii) (s1 s2 : string) :
  Js.contains c s2 = false ->
  List.last (Js.split c (s1 +:+ String c s2)) "" = s2.
Proof.
  intros H. rewrite split_app_sep, last_app_nonempty by apply split_nonempty.
  by rewrite split_without_sep.
Qed.

Lemma pretty_N_char_no_dash (x : N) :
  Ascii.eqb (pretty_N_char x) "-" = false.
Proof. unfold pretty_N_char. by repeat case_match. Qed.

Lemma pretty_N_go_no_dash (x : N) (s : string) :
  Js.contains "-" s = false -> Js.contains "-" (pretty_N_go x s) = false.
Proof.
  revert s. induction (N.lt_wf_0 x) as [x _ IH]. intros s Hs.
  destruct (decide (x = 0)%N) as [->|Hx]; [by rewrite pretty_N_go_0|].
  rewrite pretty_N_go_step by lia. apply IH.
  - apply N.div_lt; lia.
  - simpl. by rewrite pretty_N_char_no_dash.
Qed.

Lemma pretty_Z_no_dash (t : Z) :
  0 <= t -> Js.contains "-" (pretty t) = false.
Proof.
  intros Ht. destruct t as [|x|x]; [done| |lia].
  unfold pretty, pretty_Z, pretty, pretty_positive, pretty, pretty_N.
  case_decide; [done|]. by apply pretty_N_go_no_dash.
Qed.

Lemma make_backupId_timestamp (p d : string) (t : Z) :
  0 <= t ->
  List.last (Js.split "-" (make_backupId p d t)) "" = pretty t.
Proof.
  intros Ht. unfold make_backupId.
  change (p +:+ "-" +:+ d +:+ "-" +:+ pretty t)
    with (p +:+ String "-" (d +:+ String "-" (pretty t))).
  rewrite split_app_sep, last_app_nonempty by apply split_nonempty.
  apply last_segment_app. by apply pretty_Z_no_dash.
Qed.

Lemma make_backupId_differs (p1 d1 p2 d2 : string) (t1 t2 : Z) :
  0 <= t1 -> 0 <= t2 -> t1 <> t2 ->
  make_backupId p1 d1 t1 <> make_backupId p2 d2 t2.
Proof.
  intros H1 H2 Hne Heq. apply Hne.
  apply (inj pretty).
  rewrite <- (make_backupId_timestamp p1 d1 t1 H1).
  rewrite <- (make_backupId_timestamp p2 d2 t2 H2).
  by rewrite Heq.
Qed.

Lemma startBackup_returns cf sc p d a tok n (w : World) :
  exists w',
    startBackup cf sc p d a tok n w = (Returned (make_backupId p d (now w)), w').
Proof.
  destruct w as [tbl fs t tr c rt].
  assert (Hunfold :
    startBackup cf sc p d a tok n (mkWorld tbl fs t tr c rt)
    = let id := make_backupId p d t in
      let '(outcome, w1) :=
        performBackup cf sc id p d a tok n
          (mkWorld (<[id := pending_entry t]> tbl) fs t
                   (tr ++ [TableSet id (pending_entry t)]) (Some id) rt) in
      route_tail id outcome w1).
  { unfold startBackup, route_tail. run_step.
    by destruct (performBackup _ _ _ _ _ _ _ _ _) as [outcome w1]. }
  rewrite Hunfold. cbv zeta.
  destruct (performBackup _ _ _ _ _ _ _ _ _) as [outcome w1].
  destruct (route_tail_spec (make_backupId p d t) outcome w1)
    as (w3 & evs & -> & _).
  by exists w3.
Qed.

(** C8, amended: the job identifier is made of the project identifier, the
    dataset and the clock reading in milliseconds; two invocations whose
    clock readings differ (and are not negative) get different
    identifiers. *)
Theorem startBackup_ids_differ_when_clocks_differ
    cf1 sc1 p1 d1 a1 tok1 n1 (w1 : World)
    cf2 sc2 p2 d2 a2 tok2 n2 (w2 : World) :
  0 <= now w1 -> 0 <= now w2 -> now w1 <> now w2 ->
  exists id1 w1' id2 w2',
    startBackup cf1 sc1 p1 d1 a1 tok1 n1 w1 = (Returned id1, w1') /\
    startBackup cf2 sc2 p2 d2 a2 tok2 n2 w2 = (Returned id2, w2') /\
    id1 = make_backupId p1 d1 (now w1) /\
    id2 = make_backupId p2 d2 (now w2) /\
    id1 <> id2.
Proof.
  intros H1 H2 Hne.
  destruct (startBackup_returns cf1 sc1 p1 d1 a1 tok1 n1 w1) as (w1' & Hr1).
  destruct (startBackup_returns cf2 sc2 p2 d2 a2 tok2 n2 w2) as (w2' & Hr2).
  eexists _, w1', _, w2'. repeat split; [exact Hr1|exact Hr2|].
  by apply make_backupId_differs.
Qed.

End BackupFacts.

Module BackupExamples.
Import Backup Samples BackupFacts.
Local Open Scope list_scope.

(** C2 fails on the code as stated: when [S3_BUCKET_NAME] is not set, the
    [failed] entry written by [performBackup] is followed by a second write
    for the same job, made by the route. *)
Lemma failed_is_written_twice :
  writes_to job (trace (after_job no_bucket))
  = [pending_entry 1000;
     failure_entry (Js.ErrorObj "S3_BUCKET_NAME environment variable is not set") 1000;
     failure_entry (Js.ErrorObj "S3_BUCKET_NAME environment variable is not set") 1000] /\
  terminal_is_last (writes_to job (trace (after_job no_bucket))) = false.
Proof. vm_compute. split; reflexivity. Qed.

(** Nor is a terminal entry closed to a later request: a second request
    within the same millisecond is given the same identifier and writes the
    entry over, [pending] first. *)
Lemma terminal_entry_is_written_over :
  map status (writes_to job (trace (after_job no_bucket))) = [pending; failed; failed] /\
  map status
    (writes_to job (trace (snd (request no_bucket (after_job no_bucket)))))
  = [pending; failed; failed; pending; failed; failed].
Proof. vm_compute. split; reflexivity. Qed.

Lemma startBackup_writes_close_witness :
  exists w' evs pre closing,
    startBackup dated_filename all_goes_well "abc123" "production"
      "v2024-01-01" "token" "acme" (after_job no_bucket)
    = (Returned (make_backupId "abc123" "production" (now (after_job no_bucket))),
       w') /\
    trace w' = trace (after_job no_bucket) ++ evs /\
    writes_to (make_backupId "abc123" "production" (now (after_job no_bucket))) evs
    = pending_entry (now (after_job no_bucket)) :: pre ++ closing /\
    Forall nonterminal pre /\ closes closing.
Proof.
  apply (startBackup_writes_close dated_filename all_goes_well "abc123"
           "production" "v2024-01-01" "token" "acme" (after_job no_bucket)).
  vm_compute. reflexivity.
Defined.

(** C3, as the code has it: the job is created at time 1000 and every state
    change stamps [startTime] anew (the progress updates keep it), so the
    finished job carries [startTime] 9120 and a status query at that
    instant reports a duration of 0, not 8120. *)
Theorem startTime_is_stamped_at_every_transition :
  map status (writes_to job (trace (after_job all_goes_well)))
  = [pending; exporting; uploading; uploading; uploading; completed] /\
  map startTime (writes_to job (trace (after_job all_goes_well)))
  = [1000; 1120; 6120; 6120; 6120; 9120] /\
  now (after_job all_goes_well) = 9120 /\
  getStatus job (snapshot (after_job all_goes_well))
  = StatusFound (mkStatusView completed "Backup completed successfully" None None
                              (Some archive) (Some "etag-1") 9120 0).
Proof. vm_compute. repeat split; reflexivity. Qed.

(** C4 fails on the code as stated: when [S3_BUCKET_NAME] is not set, the
    job has already failed at the instant [startBackup] answers, and a
    status query made then reports [failed]. *)
Lemma status_is_failed_on_return :
  fst (request no_bucket (at_rest ∅ ∅ 1000)) = Returned job /\
  getStatus job <$> returned (after_job no_bucket)
  = Some (StatusFound
            (mkStatusView failed "Backup failed" None
               (Some "S3_BUCKET_NAME environment variable is not set")
               None None 1000 0)).
Proof. vm_compute. split; reflexivity. Qed.





(** C8 fails on the code as stated: a second request for the same project
    and dataset within the same millisecond gets the identifier of the
    first. *)
Lemma same_millisecond_same_id :
  fst (request no_bucket (at_rest ∅ ∅ 1000)) = Returned job /\
  now (after_job no_bucket) = 1000 /\
  fst (request no_bucket (after_job no_bucket)) = Returned job.
Proof. vm_compute. repeat split; reflexivity. Qed.

Lemma ids_differ_witness :
  exists id1 w1' id2 w2',
    startBackup dated_filename all_goes_well "abc123" "production" "v2024-01-01"
      "token" "acme" (at_rest ∅ ∅ 1000) = (Returned id1, w1') /\
    startBackup dated_filename all_goes_well "abc123" "production" "v2024-01-01"
      "token" "acme" (at_rest ∅ ∅ 1001) = (Returned id2, w2') /\
    id1 = make_backupId "abc123" "production" (now (at_rest ∅ ∅ 1000)) /\
    id2 = make_backupId "abc123" "production" (now (at_rest ∅ ∅ 1001)) /\
    id1 <> id2.
Proof.
  apply (startBackup_ids_differ_when_clocks_differ
           dated_filename all_goes_well "abc123" "production" "v2024-01-01"
           "token" "acme" (at_rest ∅ ∅ 1000)
           dated_filename all_goes_well "abc123" "production" "v2024-01-01"
           "token" "acme" (at_rest ∅ ∅ 1001)); simpl; lia.
Defined.

End BackupExamples.

(** ** Download *)

Module DownloadFacts.
Import Download Samples.




End DownloadFacts.

(** ** More on the listing *)

Module ListingMore.
Import Listing ListingOrder ListingFacts.
Local Open Scope list_scope.

Lemma contains_app (c : ascii) (s1 s2 : string) :
  Js.contains c (s1 +:+ s2) = Js.contains c s1 || Js.contains c s2.
Proof.
  induction s1 as [|x s1 IH]; simpl; [done|].
  by rewrite IH, orb_assoc.
Qed.

Lemma join_split (c : ascii) (s : string) :
  Js.join (String c EmptyString) (Js.split c s) = s.
Proof.
  unfold Js.join. induction s as [|x s IH]; simpl; [done|].
  pose proof (BackupFacts.split_nonempty c s) as Hne.
  destruct (Ascii.eqb_spec x c) as [->|Hx].
  - destruct (Js.split c s) as [|seg rest]; [done|].
    simpl in *. by rewrite IH.
  - destruct (Js.split c s) as [|seg rest]; [done|].
    destruct rest as [|seg' rest]; simpl in *; by rewrite <- IH.
Qed.

Lemma replace_suffix (suffix s : string) (dot : ascii) (tail : string) :
  suffix = String dot tail ->
  Js.contains dot s = false ->
  Js.replace suffix "" (s +:+ suffix) = s.
Proof.
  intros -> Hs. induction s as [|x s IH].
  - simpl.
    assert (Hp : String.prefix tail tail = true).
    { clear. induction tail as [|y tail IH]; simpl; [done|].
      by destruct (Ascii.ascii_dec y y). }
    destruct (Ascii.ascii_dec dot dot) as [_|Hne]; [|done].
    rewrite Hp. simpl. rewrite Nat.sub_diag.
    assert (Hz : forall (u : string) (k : nat), substring k 0 u = "").
    { clear. induction u as [|y u IH]; intros [|k]; simpl; auto. }
    by rewrite Hz.
  - simpl in Hs. apply orb_false_elim in Hs as [Hx Hs].
    simpl. destruct (Ascii.ascii_dec dot x) as [->|Hne].
    + by rewrite Ascii.eqb_refl in Hx.
    + by rewrite IH.
Qed.

Lemma split_convention (name dt ds last : string) :
  Js.contains "-" dt = false -> Js.contains "-" ds = false ->
  Js.contains "-" last = false ->
  Js.split "-" (name +:+ "-" +:+ dt +:+ "-" +:+ ds +:+ "-" +:+ last)
  = Js.split "-" name ++ [dt; ds; last].
Proof.
  intros Hdt Hds Hlast.
  change (name +:+ "-" +:+ dt +:+ "-" +:+ ds +:+ "-" +:+ last)
    with (name +:+ String "-" (dt +:+ String "-" (ds +:+ String "-" last))).
  rewrite !BackupFacts.split_app_sep.
  rewrite (BackupFacts.split_without_sep "-" dt Hdt).
  rewrite (BackupFacts.split_without_sep "-" ds Hds).
  by rewrite (BackupFacts.split_without_sep "-" last Hlast).
Qed.

(** X10: a key written after the convention
    [{projectName}-{date}-{dataset}-{projectId}.tar.gz], with a date, a
    dataset and a project identifier free of hyphens (and the identifier
    free of dots), is parsed back into exactly these four fields, whatever
    hyphens the project name holds. *)
Theorem summarize_reads_back_the_convention
    (name dt ds pid : string) (obj : S3Object) :
  Js.contains "-" dt = false ->
  Js.contains "-" ds = false ->
  Js.contains "-" pid = false ->
  Js.contains "." pid = false ->
  Key obj = Some (name +:+ "-" +:+ dt +:+ "-" +:+ ds +:+ "-" +:+ pid +:+ ".tar.gz") ->
  projectName (summarize obj) = name /\ date (summarize obj) = dt /\
  dataset (summarize obj) = ds /\ projectId (summarize obj) = pid.
Proof.
  intros Hdt Hds Hpid Hdot HK. unfold summarize. rewrite HK.
  change (default "" (Some ?k)) with k.
  rewrite split_convention; [|done|done|by rewrite contains_app, Hpid].
  pose proof (BackupFacts.split_nonempty "-" name) as Hne.
  set (parts := Js.split "-" name) in *.
  assert (Hlen : (4 <=? length (parts ++ [dt; ds; pid +:+ ".tar.gz"]))%nat = true).
  { apply Nat.leb_le. rewrite length_app. simpl.
    destruct parts; [done|simpl; lia]. }
  rewrite Hlen. unfold Js.slice_last, Js.slice_but_last.
  rewrite length_app. simpl length.
  replace (length parts + 3 - 3)%nat with (length parts) by lia.
  rewrite drop_app_length, take_app_length. simpl.
  repeat split.
  - apply join_split.
  - by apply (replace_suffix ".tar.gz" pid "." "tar.gz").
Qed.

Lemma summarize_reads_back_witness :
  projectName (summarize (mkS3Object (Some "my-site-20250115-production-abc123.tar.gz") None None))
  = "my-site" /\
  date (summarize (mkS3Object (Some "my-site-20250115-production-abc123.tar.gz") None None))
  = "20250115" /\
  dataset (summarize (mkS3Object (Some "my-site-20250115-production-abc123.tar.gz") None None))
  = "production" /\
  projectId (summarize (mkS3Object (Some "my-site-20250115-production-abc123.tar.gz") None None))
  = "abc123".
Proof.
  apply (summarize_reads_back_the_convention "my-site" "20250115" "production"
           "abc123"
           (mkS3Object (Some "my-site-20250115-production-abc123.tar.gz") None None));
    reflexivity.
Defined.




(** *** The order of the listing *)

Lemma compare_not_gt_trans (a b c : string) :
  String.compare a b <> Gt -> String.compare b c <> Gt ->
  String.compare a c <> Gt.
Proof.
  revert b c. induction a as [|x a IH]; intros [|y b] [|z c]; simpl; try done.
  unfold Ascii.compare.
  destruct (N.compare_spec (N_of_ascii x) (N_of_ascii y));
    destruct (N.compare_spec (N_of_ascii y) (N_of_ascii z));
    destruct (N.compare_spec (N_of_ascii x) (N_of_ascii z));
    try done; try lia; eauto.
Qed.

Lemma localeCompare_le (s t : string) :
  Js.localeCompare s t <= 0 <-> String.compare s t <> Gt.
Proof. unfold Js.localeCompare. destruct (String.compare s t); split; (done || lia). Qed.

Lemma localeCompare_flip (s t : string) :
  ~ Js.localeCompare s t <= 0 -> Js.localeCompare t s <= 0.
Proof.
  rewrite !localeCompare_le. rewrite (String.compare_antisym s t).
  destruct (String.compare t s); simpl; intros H; (done || by destruct H).
Qed.

Lemma sort_insert_by_date (x : ArchiveSummary) (l : list ArchiveSummary) :
  Js.truthy (date x) = true ->
  Forall (fun a => Js.truthy (date a) = true) l ->
  StronglySorted not_older l ->
  StronglySorted not_older (Js.sort_insert by_date_desc x l).
Proof.
  intros Hx Hall Hs. induction l as [|y l IH]; simpl.
  - repeat constructor.
  - apply Forall_cons in Hall as [Hy Hall].
    apply StronglySorted_inv in Hs as [Hs Hy_le].
    assert (Hcmp : by_date_desc x y = Js.localeCompare (date y) (date x)).
    { unfold by_date_desc. by rewrite Hx, Hy. }
    rewrite Hcmp. destruct (Z.leb_spec (Js.localeCompare (date y) (date x)) 0) as [Hle|Hgt].
    + constructor; [by constructor|]. constructor; [exact Hle|].
      eapply Forall_impl; [exact Hy_le|]. intros z Hz. unfold not_older in *.
      apply localeCompare_le. eapply compare_not_gt_trans; by apply localeCompare_le.
    + constructor; [by apply IH|].
      rewrite sort_insert_perm. constructor; [|done].
      apply localeCompare_flip. lia.
Qed.

(** X12: when the parsed date of every archive of the listing is a non-empty
    string of decimal digits, the listing is in descending order of that
    date: no entry is older than one that follows it. (Other dates are left
    out: an empty one makes the comparator inconsistent, and on letters and
    signs the collation of the host is not the order of the character
    codes.) *)
Theorem backupFiles_sorted_by_date (contents : list S3Object) :
  Forall (fun a => decimal_date a = true)
         (map summarize (filter is_backup_file contents)) ->
  StronglySorted not_older (backupFiles contents).
Proof.
  unfold backupFiles. generalize (map summarize (filter is_backup_file contents)).
  intros l Hdec.
  assert (Hall : Forall (fun a => Js.truthy (date a) = true) l).
  { eapply Forall_impl; [exact Hdec|]. intros a Ha.
    by apply andb_prop in Ha as [Ha _]. }
  clear Hdec. induction l as [|x l IH]; [constructor|].
  apply Forall_cons in Hall as [Hx Hall].
  change (Js.sort by_date_desc (x :: l))
    with (Js.sort_insert by_date_desc x (Js.sort by_date_desc l)).
  apply sort_insert_by_date; [done| |by apply IH].
  by rewrite sort_perm.
Qed.

Lemma backupFiles_sorted_witness :
  StronglySorted not_older
    (backupFiles
       [mkS3Object (Some "acme-20250115-production-abc123.tar.gz") None None;
        mkS3Object (Some "notes.txt") None None;
        mkS3Object (Some "acme-20250201-staging-def456.tar.gz") None None]).
Proof.
  apply (backupFiles_sorted_by_date
           [mkS3Object (Some "acme-20250115-production-abc123.tar.gz") None None;
            mkS3Object (Some "notes.txt") None None;
            mkS3Object (Some "acme-20250201-staging-def456.tar.gz") None None]).
  vm_compute. repeat constructor.
Defined.

End ListingMore.

(** ** More on the backup job *)

Module BackupMore.
Import Backup BackupFrames BackupFacts.
Local Open Scope js_scope.
Local Open Scope list_scope.

Section Closure.

Variable R : World -> World -> Prop.
Hypothesis R_refl : forall w, R w w.
Hypothesis R_trans : forall w1 w2 w3, R w1 w2 -> R w2 w3 -> R w1 w3.

Lemma keeps_ret {A} (a : A) : keeps R (ret a).
Proof. intros w. apply R_refl. Qed.

Lemma keeps_throw {A} (e : Js.Thrown) : keeps R (@throw A e).
Proof. intros w. apply R_refl. Qed.

Lemma keeps_read {A} (f : World -> Result A) : keeps R (fun w => (f w, w)).
Proof. intros w. apply R_refl. Qed.

Lemma keeps_bind {A B} (m : M A) (k : A -> M B) :
  keeps R m -> (forall a, keeps R (k a)) -> keeps R (bind m k).
Proof.
  intros Hm Hk w. unfold bind. specialize (Hm w).
  destruct (m w) as [[a|e] w1]; simpl in *; [|done].
  eapply R_trans; [exact Hm | apply Hk].
Qed.

Lemma keeps_try_catch {A} (m : M A) (h : Js.Thrown -> M A) :
  keeps R m -> (forall e, keeps R (h e)) -> keeps R (try_catch m h).
Proof.
  intros Hm Hh w. unfold try_catch. specialize (Hm w).
  destruct (m w) as [[a|e] w1]; simpl in *; [done|].
  eapply R_trans; [exact Hm | apply Hh].
Qed.

Lemma keeps_when (b : bool) (m : M unit) : keeps R m -> keeps R (when_ b m).
Proof. destruct b; simpl; [done|]. intros _. apply keeps_ret. Qed.

Lemma keeps_for_each {A} (f : A -> M unit) (l : list A) :
  (forall x, keeps R (f x)) -> keeps R (for_each f l).
Proof.
  intros Hf. induction l as [|x l IH]; simpl.
  - apply keeps_ret.
  - apply keeps_bind; [apply Hf | intros _; exact IH].
Qed.

Lemma keeps_settle (outcome : option Js.Thrown) : keeps R (settle outcome).
Proof. destruct outcome; [apply keeps_throw | apply keeps_ret]. Qed.

Lemma keeps_attempt {A} (m : M A) : keeps R m -> keeps R (attempt m).
Proof.
  intros Hm w. unfold attempt. specialize (Hm w). by destruct (m w).
Qed.

End Closure.

Lemma returns_in_bind {A B} (Q : World -> Prop) (m : M A) (k : A -> M B) :
  (forall a, returns_in Q (k a)) -> returns_in Q (bind m k).
Proof.
  intros Hk w b w'. unfold bind.
  destruct (m w) as [[a|e] w1]; [|done]. apply Hk.
Qed.

(** *** A job writes its own entry only *)

Section Elsewhere.

Variable id : string.

Lemma elsewhere_refl (w : World) : untouched_elsewhere id w w.
Proof. by intros id' _. Qed.

Lemma elsewhere_trans (w1 w2 w3 : World) :
  untouched_elsewhere id w1 w2 -> untouched_elsewhere id w2 w3 ->
  untouched_elsewhere id w1 w3.
Proof. intros H12 H23 id' Hne. by rewrite H23, H12. Qed.

Lemma elsewhere_same_table {A} (m : M A) :
  (forall w, backupStatus (snd (m w)) = backupStatus w) ->
  keeps (untouched_elsewhere id) m.
Proof. intros Hm w id' _. by rewrite Hm. Qed.

Lemma elsewhere_set (entry : Entry) :
  keeps (untouched_elsewhere id) (backupStatus_set id entry).
Proof. intros w id' Hne. simpl. by rewrite lookup_insert_ne. Qed.

Lemma elsewhere_log (ev : Event) : keeps (untouched_elsewhere id) (log ev).
Proof. by apply elsewhere_same_table. Qed.

Lemma elsewhere_yield : keeps (untouched_elsewhere id) yield_to_caller.
Proof.
  apply elsewhere_same_table. intros w. unfold yield_to_caller.
  by destruct (caller w).
Qed.

Lemma elsewhere_elapse (delay : Z) : keeps (untouched_elsewhere id) (elapse delay).
Proof. by apply elsewhere_same_table. Qed.

Lemma elsewhere_unlinkSync (path : string) :
  keeps (untouched_elsewhere id) (unlinkSync path).
Proof.
  apply elsewhere_same_table. intros w. unfold unlinkSync.
  by destruct (files w !! path) as [[sz []]|].
Qed.

Lemma elsewhere_statSync (path : string) :
  keeps (untouched_elsewhere id) (statSync path).
Proof.
  apply elsewhere_same_table. intros w. unfold statSync.
  by destruct (files w !! path).
Qed.

Lemma elsewhere_onProgress (ev : option Z * option Z) :
  keeps (untouched_elsewhere id) (onProgress id ev).
Proof.
  unfold onProgress. destruct ev as [[loaded|] [total|]];
    try (apply keeps_ret; apply elsewhere_refl).
  destruct (negb (loaded =? 0) && negb (total =? 0));
    [|apply keeps_ret; apply elsewhere_refl].
  unfold backupStatus_get.
  apply keeps_bind; [apply elsewhere_trans| |intros ?].
  - apply keeps_read; apply elsewhere_refl.
  - apply elsewhere_set.
Qed.

Lemma elsewhere_performBackup cf sc p d a tok n :
  keeps (untouched_elsewhere id) (performBackup cf sc id p d a tok n).
Proof.
  unfold performBackup, performBackup_try, performBackup_catch,
    validate_environment, createClient, test_connection, client_fetch,
    export_and_upload, exportDataset, upload_done, await, createFilename_now,
    Date_now, existsSync.
  repeat first
    [ apply elsewhere_set
    | apply elsewhere_log
    | apply elsewhere_yield
    | apply elsewhere_elapse
    | apply elsewhere_unlinkSync
    | apply elsewhere_statSync
    | apply elsewhere_onProgress
    | apply keeps_bind; [apply elsewhere_trans| |intros ?]
    | apply keeps_try_catch; [apply elsewhere_trans| |intros ?]
    | apply keeps_when; [apply elsewhere_refl|]
    | apply keeps_for_each; [apply elsewhere_refl|apply elsewhere_trans|intros ?]
    | apply keeps_settle; apply elsewhere_refl
    | apply keeps_throw; apply elsewhere_refl
    | apply keeps_read; apply elsewhere_refl ].
  - apply elsewhere_same_table. intros w. unfold modify. simpl.
    by destruct (export_writes sc).
  - destruct (upload_result sc);
      [apply keeps_throw|apply keeps_ret]; apply elsewhere_refl.
Qed.

End Elsewhere.

(** X1: a job changes no entry of the status table but its own: the entries
    of all other identifiers, present or absent, are after the job what
    they were before it. *)
Theorem job_writes_only_its_own_entry
    cf sc p d a tok n table fs t (other : string) :
  other <> make_backupId p d t ->
  exists w,
    startBackup cf sc p d a tok n (at_rest table fs t)
    = (Returned (make_backupId p d t), w) /\
    backupStatus w !! other = table !! other.
Proof.
  intros Hne. rewrite startBackup_unfold. cbv zeta.
  set (id := make_backupId p d t) in *.
  pose proof (elsewhere_performBackup id cf sc p d a tok n (started table fs t id))
    as Hjob.
  destruct (performBackup _ _ _ _ _ _ _ _ _) as [outcome w1]. simpl in Hjob.
  destruct (route_tail_spec id outcome w1)
    as (w3 & evs & -> & _ & _ & _ & _ & _ & _ & Hcases).
  exists w3. split; [done|].
  assert (Hw1 : backupStatus w1 !! other = table !! other).
  { rewrite (Hjob other Hne). simpl. by rewrite lookup_insert_ne. }
  destruct outcome as [[]|err].
  - destruct Hcases as [_ ->]. exact Hw1.
  - destruct Hcases as [(_ & _ & ->)|(_ & ->)]; [exact Hw1|].
    by rewrite lookup_insert_ne.
Qed.

Lemma job_writes_only_its_own_entry_witness :
  exists w,
    startBackup Samples.dated_filename Samples.all_goes_well "abc123"
      "production" "v2024-01-01" "token" "acme"
      (at_rest {[ "old-job-1" := pending_entry 5 ]} ∅ 1000)
    = (Returned (make_backupId "abc123" "production" 1000), w) /\
    backupStatus w !! "old-job-1"
    = ({[ "old-job-1" := pending_entry 5 ]} : gmap string Entry) !! "old-job-1".
Proof.
  apply (job_writes_only_its_own_entry Samples.dated_filename
           Samples.all_goes_well "abc123" "production" "v2024-01-01" "token"
           "acme" {[ "old-job-1" := pending_entry 5 ]} ∅ 1000 "old-job-1").
  vm_compute. discriminate.
Defined.

(** *** What ends the process *)

Lemma life_refl (w : World) : same_life w w.
Proof. reflexivity. Qed.

Lemma life_trans (w1 w2 w3 : World) :
  same_life w1 w2 -> same_life w2 w3 -> same_life w1 w3.
Proof. unfold same_life. intros H12 H23. by rewrite H23. Qed.

Lemma life_same_trace {A} (m : M A) :
  (forall w, trace (snd (m w)) = trace w) -> keeps same_life m.
Proof. intros Hm w. unfold same_life, process_ended. by rewrite Hm. Qed.

Lemma life_log (ev : Event) :
  is_rejection ev = false -> keeps same_life (log ev).
Proof.
  intros Hev w. unfold same_life, process_ended. simpl.
  rewrite existsb_app. simpl. by rewrite Hev, !orb_false_r.
Qed.

Lemma life_set (id : string) (entry : Entry) :
  keeps same_life (backupStatus_set id entry).
Proof.
  intros w. unfold same_life, process_ended. simpl.
  rewrite existsb_app. simpl. by rewrite !orb_false_r.
Qed.

Lemma life_yield : keeps same_life yield_to_caller.
Proof.
  intros w. unfold same_life, process_ended, yield_to_caller.
  destruct (caller w); simpl; [|done].
  rewrite existsb_app. simpl. by rewrite !orb_false_r.
Qed.

Lemma life_elapse (delay : Z) : keeps same_life (elapse delay).
Proof. by apply life_same_trace. Qed.

Lemma life_unlinkSync (path : string) : keeps same_life (unlinkSync path).
Proof.
  intros w. unfold same_life, process_ended, unlinkSync.
  destruct (files w !! path) as [[sz []]|]; simpl; try done.
  rewrite existsb_app. simpl. by rewrite !orb_false_r.
Qed.

Lemma life_statSync (path : string) : keeps same_life (statSync path).
Proof.
  apply life_same_trace. intros w. unfold statSync.
  by destruct (files w !! path).
Qed.

Lemma life_onProgress (id : string) (ev : option Z * option Z) :
  keeps same_life (onProgress id ev).
Proof.
  unfold onProgress. destruct ev as [[loaded|] [total|]];
    try (apply keeps_ret; apply life_refl).
  destruct (negb (loaded =? 0) && negb (total =? 0));
    [|apply keeps_ret; apply life_refl].
  unfold backupStatus_get.
  apply keeps_bind; [apply life_trans| |intros ?].
  - apply keeps_read; apply life_refl.
  - apply life_set.
Qed.

(** [performBackup] handles what it throws itself: the process outlives
    it. *)
Lemma life_performBackup cf sc id p d a tok n :
  keeps same_life (performBackup cf sc id p d a tok n).
Proof.
  unfold performBackup, performBackup_try, performBackup_catch,
    validate_environment, createClient, test_connection, client_fetch,
    export_and_upload, exportDataset, upload_done, await, createFilename_now,
    Date_now, existsSync.
  repeat first
    [ apply life_set
    | apply life_log; reflexivity
    | apply life_yield
    | apply life_elapse
    | apply life_unlinkSync
    | apply life_statSync
    | apply life_onProgress
    | apply keeps_bind; [apply life_trans| |intros ?]
    | apply keeps_try_catch; [apply life_trans| |intros ?]
    | apply keeps_when; [apply life_refl|]
    | apply keeps_for_each; [apply life_refl|apply life_trans|intros ?]
    | apply keeps_settle; apply life_refl
    | apply keeps_throw; apply life_refl
    | apply keeps_read; apply life_refl ].
  - apply life_same_trace. intros w. unfold modify. simpl.
    by destruct (export_writes sc).
  - destruct (upload_result sc);
      [apply keeps_throw|apply keeps_ret]; apply life_refl.
Qed.

(** Only the callback of the route can end the process, and does so when
    it is given [null] or [undefined]. *)
Lemma route_tail_life (id : string) (outcome : Result unit) (w1 : World) :
  process_ended (snd (route_tail id outcome w1))
  = process_ended w1 || rejected_with_nothing outcome.
Proof.
  destruct w1 as [tbl fs t tr c rt]. unfold route_tail, process_ended.
  destruct c, outcome as [[]|[m|[]]]; simpl;
    rewrite ?existsb_app; simpl; by rewrite ?orb_false_r.
Qed.

Lemma startBackup_life cf sc p d a tok n table fs t :
  process_ended (snd (startBackup cf sc p d a tok n (at_rest table fs t)))
  = rejected_with_nothing
      (fst (performBackup cf sc (make_backupId p d t) p d a tok n
              (started table fs t (make_backupId p d t)))).
Proof.
  rewrite startBackup_unfold. cbv zeta.
  set (id := make_backupId p d t).
  pose proof (life_performBackup cf sc id p d a tok n (started table fs t id))
    as Hjob.
  destruct (performBackup _ _ _ _ _ _ _ _ _) as [outcome w1].
  unfold same_life in Hjob. cbn [fst snd] in *.
  by rewrite route_tail_life, Hjob.
Qed.

(** *** How a job ends *)

Lemma returns_completed cf sc id p d a tok n :
  returns_in
    (fun w => exists filename ETag t,
       backupStatus w !! id = Some (completed_entry filename ETag t))
    (performBackup_try cf sc id p d a tok n).
Proof.
  unfold performBackup_try, export_and_upload.
  repeat lazymatch goal with
         | |- returns_in _ (backupStatus_set _ _) => fail
         | |- _ => apply returns_in_bind; intros ?
         end.
  intros w [] w' Hset. unfold backupStatus_set in Hset. run_step.
  injection Hset as <-. simpl. rewrite lookup_insert_eq. eauto.
Qed.

Lemma final_entry cf sc p d a tok n table fs t :
  exists w e,
    startBackup cf sc p d a tok n (at_rest table fs t)
    = (Returned (make_backupId p d t), w) /\
    backupStatus w !! make_backupId p d t = Some e /\
    ((exists filename ETag t', e = completed_entry filename ETag t') \/
     (exists err t', e = failure_entry err t')).
Proof.
  rewrite startBackup_unfold. cbv zeta.
  set (id := make_backupId p d t).
  unfold performBackup, try_catch.
  destruct (performBackup_try cf sc id p d a tok n (started table fs t id))
    as [[[]|err] w1] eqn:Htry.
  - destruct (returns_completed cf sc id p d a tok n _ _ _ Htry)
      as (filename & ETag & t' & Hw1).
    destruct (route_tail_spec id (Returned tt) w1)
      as (w3 & evs & -> & _ & _ & _ & _ & _ & _ & _ & Htbl).
    exists w3. eexists. split; [done|]. rewrite Htbl. split; [exact Hw1|].
    left. eauto.
  - destruct (fail_and_finish cf id p d n err w1)
      as (w3 & evs & -> & _ & _ & _ & Htbl).
    exists w3. eexists. split; [done|]. split; [exact Htbl|]. right. eauto.
Qed.

(** X2: a job ends in one of two ways. When the promise of [performBackup]
    is rejected with [null] or [undefined], and only then, the callback of
    the route throws and the process ends: the status route answers no
    more. In every other case the process lives and a status query finds
    the entry of the job in a terminal state: [completed], with the name of
    the stored archive and no error, or [failed], with an error message
    and no archive. *)
Theorem every_job_ends_completed_or_failed cf sc p d a tok n table fs t :
  exists w,
    startBackup cf sc p d a tok n (at_rest table fs t)
    = (Returned (make_backupId p d t), w) /\
    process_ended w
    = rejected_with_nothing
        (fst (performBackup cf sc (make_backupId p d t) p d a tok n
                (started table fs t (make_backupId p d t)))) /\
    if process_ended w then
      forall t', statusRoute (make_backupId p d t) w t' = None
    else
      exists view,
        statusRoute (make_backupId p d t) w (now w) = Some (StatusFound view) /\
        ((view_status view = completed /\ is_Some (view_s3Location view) /\
          view_error view = None) \/
         (view_status view = failed /\ is_Some (view_error view) /\
          view_s3Location view = None)).
Proof.
  destruct (final_entry cf sc p d a tok n table fs t)
    as (w & e & Hrun & Htbl & Hcases).
  pose proof (startBackup_life cf sc p d a tok n table fs t) as Hlife.
  rewrite Hrun in Hlife. cbn [snd] in Hlife.
  exists w. split; [exact Hrun|]. split; [exact Hlife|].
  unfold statusRoute. destruct (process_ended w); [done|].
  unfold getStatus. simpl. rewrite Htbl.
  eexists. split; [reflexivity|]. simpl.
  destruct Hcases as [(filename & ETag & t' & ->)|(err & t' & ->)]; simpl.
  - left. eauto.
  - right. eauto.
Qed.

(** A job whose export is rejected with [undefined] takes the process with
    it, and no status query is answered afterwards; a job whose export
    fails with an error leaves the process alive. *)
Lemma rejection_with_nothing_ends_the_process :
  process_ended (Samples.after_job MoreSamples.export_rejects_with_nothing) = true /\
  statusRoute Samples.job
    (Samples.after_job MoreSamples.export_rejects_with_nothing) 20000 = None /\
  process_ended (Samples.after_job MoreSamples.export_fails) = false.
Proof. vm_compute. repeat split; reflexivity. Qed.

(** *** The progress listener *)

Lemma last_cons_default {A} (l : list A) (x d : A) :
  List.last (x :: l) d = List.last l x.
Proof.
  revert x d. induction l as [|y l IH]; intros x d; [done|].
  change (List.last (x :: y :: l) d) with (List.last (y :: l) d).
  by rewrite !IH.
Qed.

Lemma last_elem {A} (l : list A) (x d : A) : List.last (x :: l) d ∈ x :: l.
Proof.
  revert x d. induction l as [|y l IH]; intros x d; [set_solver|].
  change (List.last (x :: y :: l) d) with (List.last (y :: l) d).
  right. apply IH.
Qed.

Lemma progress_spec (id : string) (evs : list (option Z * option Z))
    tbl fs t tr c rt (e0 : Entry) :
  tbl !! id = Some e0 ->
  exists tbl' entries,
    for_each (onProgress id) evs (mkWorld tbl fs t tr c rt)
    = (Returned tt, mkWorld tbl' fs t (tr ++ map (TableSet id) entries) c rt) /\
    Forall (progress_of e0) entries /\
    tbl' !! id = Some (List.last entries e0) /\
    (forall id', id' <> id -> tbl' !! id' = tbl !! id').
Proof.
  revert tbl tr e0. induction evs as [|ev evs IH]; intros tbl tr e0 He0.
  - exists tbl, []. simpl. rewrite app_nil_r. unfold ret. by repeat split.
  - simpl. unfold bind at 1.
    destruct ev as [[loaded|] [total|]]; simpl; try by apply IH.
    destruct (negb (loaded =? 0) && negb (total =? 0)); simpl; [|by apply IH].
    run_step. rewrite He0.
    match goal with
    | |- context [TableSet id ?entry] => set (e := entry)
    end.
    destruct (IH (<[id := e]> tbl) (tr ++ [TableSet id e]) e)
      as (tbl' & entries & -> & Hall & Hlast & Hother);
      [apply lookup_insert_eq|].
    exists tbl', (e :: entries). split; [|split; [|split]].
    + simpl. by rewrite <- app_assoc.
    + constructor; [by repeat split|].
      eapply Forall_impl; [exact Hall|].
      intros x (? & ? & ? & ? & ? & ?). by repeat split.
    + by rewrite last_cons_default.
    + intros id' Hne. by rewrite Hother, lookup_insert_ne.
Qed.

Lemma progress_of_trans (e0 e1 e2 : Entry) :
  progress_of e0 e1 -> progress_of e1 e2 -> progress_of e0 e2.
Proof.
  intros (_ & _ & H1 & H2 & H3 & H4) (? & ? & G1 & G2 & G3 & G4).
  repeat split; try done; congruence.
Qed.

(** X9: the progress listener writes the entry of the job once for every
    event whose [loaded] and [total] are both there and not 0, and does
    nothing for any other event. Each entry it writes is an [uploading]
    entry with a percentage that keeps the [startTime], the error, the
    location and the tag of the entry it found, and the last one written
    is the entry of the job afterwards: without such an event the entry
    stays as it was. Files, clock and the other entries stay as they were,
    and the listener never throws. *)
Theorem progress_events_keep_the_entry
    (id : string) (evs : list (option Z * option Z)) (w : World) (e0 : Entry) :
  backupStatus w !! id = Some e0 ->
  exists w' entries,
    for_each (onProgress id) evs w = (Returned tt, w') /\
    trace w' = trace w ++ map (TableSet id) entries /\
    length entries = length (List.filter effective evs) /\
    Forall (progress_of e0) entries /\
    backupStatus w' !! id = Some (List.last entries e0) /\
    (forall id', id' <> id -> backupStatus w' !! id' = backupStatus w !! id') /\
    files w' = files w /\ now w' = now w.
Proof.
  revert w e0. induction evs as [|ev evs IH]; intros w e0 He0.
  - exists w, []. simpl. rewrite app_nil_r. by repeat split.
  - assert (Hskip : effective ev = false ->
                    onProgress id ev w = (Returned tt, w)).
    { destruct ev as [[loaded|] [total|]]; simpl; try done.
      by intros ->. }
    cbn [for_each]. unfold bind at 1. cbn [List.filter].
    destruct (effective ev) eqn:Hev.
    + destruct ev as [[loaded|] [total|]]; try done.
      simpl in Hev. unfold onProgress. rewrite Hev.
      destruct w as [tbl fs t tr c rt]. simpl in He0. run_step. rewrite He0.
      match goal with
      | |- context [TableSet id ?entry] => set (e := entry)
      end.
      assert (He : progress_of e0 e) by (by repeat split).
      destruct (IH (mkWorld (<[id := e]> tbl) fs t (tr ++ [TableSet id e]) c rt) e)
        as (w' & entries & Hrun & Htr & Hlen & Hall & Hlast & Hother & Hfs & Hnow);
        [apply lookup_insert_eq|].
      exists w', (e :: entries). split; [exact Hrun|].
      cbn [trace backupStatus files now] in *. cbn [map length].
      split; [by rewrite Htr, <- app_assoc|].
      split; [by rewrite Hlen|].
      split; [|split; [|split]].
      * constructor; [exact He|].
        eapply Forall_impl; [exact Hall|].
        intros x Hx. by apply (progress_of_trans e0 e x).
      * rewrite Hlast. by rewrite last_cons_default.
      * intros id' Hne. by rewrite Hother, lookup_insert_ne.
      * done.
    + rewrite (Hskip eq_refl). by apply IH.
Qed.

(** *** The job, path by path *)

Lemma writes_to_own (id : string) (entries : list Entry) :
  writes_to id (map (TableSet id) entries) = entries.
Proof.
  induction entries as [|e es IH]; simpl; [done|].
  by rewrite String.eqb_refl, IH.
Qed.

Lemma export_calls_writes (id : string) (entries : list Entry) :
  export_calls (map (TableSet id) entries) = 0%nat.
Proof. induction entries; simpl; auto. Qed.

Lemma reach_export cf sc p d a tok n table fs t :
  storage_configured sc = true ->
  createClient_throws sc = None ->
  probe_throws sc = None ->
  startBackup cf sc p d a tok n (at_rest table fs t)
  = let id := make_backupId p d t in
    let '(outcome, w1) :=
      let '(r, w') :=
        export_and_upload cf sc id p d n
          (connected table fs t (probe_delay sc) id) in
      match r with
      | Returned x => (Returned x, w')
      | Threw e => performBackup_catch cf id p d n e w'
      end in
    route_tail id outcome w1.
Proof.
  intros Hconf Hclient Hprobe. rewrite startBackup_unfold. cbv zeta.
  unfold storage_configured in Hconf.
  apply andb_prop in Hconf as [Hconf Hsecret].
  apply andb_prop in Hconf as [Hbucket Hkey].
  unfold performBackup, try_catch, performBackup_try, validate_environment,
    test_connection, started, connected.
  run_step. rewrite Hbucket, Hkey, Hsecret, Hclient. run_step.
  rewrite Hprobe. run_step. reflexivity.
Qed.

(** The export stage in closed form. *)
Lemma export_stage cf sc id p d n table fs t :
  let filename := cf (t + probe_delay sc) p d n in
  let t1 := t + probe_delay sc in
  let t2 := t1 + export_delay sc in
  let t3 := t2 + upload_delay sc in
  let files1 := files_after_export sc fs filename in
  let snap := Some (mkSnapshot (<[id := pending_entry t]> table) t) in
  let tbl1 := <[id := exporting_entry t1]> (<[id := pending_entry t]> table) in
  let tbl2 := <[id := uploading_entry t2]> tbl1 in
  let tr1 := [TableSet id (pending_entry t); ClientCreated; ProbeCalled;
              Responded id; TableSet id (exporting_entry t1);
              ExportCalled filename] in
  let tr2 := tr1 ++ [TableSet id (uploading_entry t2)] in
  exists tbl3 entries,
    Forall (progress_of (uploading_entry t2)) entries /\
    tbl3 !! id = Some (List.last entries (uploading_entry t2)) /\
    let tr3 := tr2 ++ UploadCalled filename :: map (TableSet id) entries in
    export_and_upload cf sc id p d n (connected table fs t (probe_delay sc) id)
    = match export_throws sc with
      | Some e => (Threw e, mkWorld tbl1 files1 t2 tr1 None snap)
      | None =>
          match files1 !! filename with
          | None =>
              (Threw (Js.ErrorObj ("Export file not found: " +:+ filename)),
               mkWorld tbl2 files1 t2 tr2 None snap)
          | Some f =>
              match upload_result sc with
              | inl e => (Threw e, mkWorld tbl3 files1 t3 tr3 None snap)
              | inr ETag =>
                  if deletable f then
                    (Returned tt,
                     mkWorld (<[id := completed_entry filename ETag t3]> tbl3)
                             (delete filename files1) t3
                             (tr3 ++ [Unlinked filename;
                                      TableSet id (completed_entry filename ETag t3)])
                             None snap)
                  else
                    (Threw (Js.ErrorObj
                              ("EPERM: operation not permitted, unlink '"
                               +:+ filename +:+ "'")),
                     mkWorld tbl3 files1 t3 tr3 None snap)
              end
          end
      end.
Proof.
  intros filename t1 t2 t3 files1 snap tbl1 tbl2 tr1 tr2.
  assert (Hrest : forall files2 : gmap string File,
    exists tbl3 entries,
      Forall (progress_of (uploading_entry t2)) entries /\
      tbl3 !! id = Some (List.last entries (uploading_entry t2)) /\
      (t <- Date_now ;;
             backupStatus_set id (mkEntry uploading "Uploading to S3..."
                                          None None None None t) ;;
             found <- existsSync filename ;;
             when_ (negb found)
               (throw (Js.ErrorObj ("Export file not found: " +:+ filename))) ;;
             _ <- statSync filename ;;
             ETag <- upload_done sc id filename ;;
             unlinkSync filename ;;
             t <- Date_now ;;
             backupStatus_set id
               (mkEntry completed "Backup completed successfully" None None
                        (Some filename) ETag t))
        (mkWorld tbl1 files2 t2 tr1 None snap)
      = match files2 !! filename with
        | None =>
            (Threw (Js.ErrorObj ("Export file not found: " +:+ filename)),
             mkWorld tbl2 files2 t2 tr2 None snap)
        | Some f =>
            match upload_result sc with
            | inl e =>
                (Threw e,
                 mkWorld tbl3 files2 t3
                   (tr2 ++ UploadCalled filename :: map (TableSet id) entries)
                   None snap)
            | inr ETag =>
                if deletable f then
                  (Returned tt,
                   mkWorld (<[id := completed_entry filename ETag t3]> tbl3)
                           (delete filename files2) t3
                           ((tr2 ++ UploadCalled filename
                                 :: map (TableSet id) entries)
                            ++ [Unlinked filename;
                                TableSet id (completed_entry filename ETag t3)])
                           None snap)
                else
                  (Threw (Js.ErrorObj
                            ("EPERM: operation not permitted, unlink '"
                             +:+ filename +:+ "'")),
                   mkWorld tbl3 files2 t3
                     (tr2 ++ UploadCalled filename :: map (TableSet id) entries)
                     None snap)
            end
        end).
  { intros files2.
    destruct (progress_spec id (upload_progress sc) tbl2 files2 t2
                (tr2 ++ [UploadCalled filename]) None snap (uploading_entry t2))
      as (tbl3 & entries & Hprog & Hall & Hlast & _);
      [apply lookup_insert_eq|].
    exists tbl3, entries. split; [exact Hall|]. split; [exact Hlast|].
    run_step.
    destruct (files2 !! filename) as [f|] eqn:Hf; run_step; [|reflexivity].
    rewrite Hf. run_step. unfold upload_done. run_step.
    match goal with
    | |- context [for_each (onProgress id) (upload_progress sc) ?w] =>
        change w with (mkWorld tbl2 files2 t2 (tr2 ++ [UploadCalled filename])
                               None snap)
    end.
    rewrite Hprog. run_step.
    assert (Htr : ((tr2 ++ [UploadCalled filename]) ++ map (TableSet id) entries)
                  = tr2 ++ UploadCalled filename :: map (TableSet id) entries)
      by (by rewrite <- app_assoc).
    rewrite Htr.
    destruct (upload_result sc) as [uploadError|ETag]; run_step; [reflexivity|].
    rewrite Hf. destruct (deletable f); run_step; [|reflexivity].
    by rewrite <- app_assoc. }
  destruct (Hrest files1) as (tbl3 & entries & Hall & Hlast & Heq).
  exists tbl3, entries. split; [exact Hall|]. split; [exact Hlast|].
  cbv zeta.
  unfold export_and_upload, connected. run_step.
  destruct (export_throws sc) as [exportError|]; run_step.
  { subst files1. unfold files_after_export. by destruct (export_writes sc). }
  revert Heq. unfold bind, ret. subst files1. unfold files_after_export.
  destruct (export_writes sc) as [written|]; run_step; intros Heq.
  - match goal with
    | |- ?lhs = _ =>
        match type of Heq with
        | ?lhs' = _ => change lhs with lhs'
        end
    end.
    exact Heq.
  - match goal with
    | |- ?lhs = _ =>
        match type of Heq with
        | ?lhs' = _ => change lhs with lhs'
        end
    end.
    exact Heq.
Qed.

Ltac count_trace :=
  repeat (progress (simpl;
                    rewrite ?writes_to_app, ?export_calls_app,
                      ?upload_calls_app, ?String.eqb_refl, ?writes_to_own,
                      ?export_calls_writes, ?upload_calls_writes)).

Lemma fail_and_finish_files cf id p d n err w1 :
  exists w3 evs,
    (let '(outcome, w1') := performBackup_catch cf id p d n err w1 in
     route_tail id outcome w1') = (Returned id, w3) /\
    trace w3 = trace w1 ++ evs /\
    export_calls evs = 0%nat /\ upload_calls evs = 0%nat /\
    backupStatus w3 !! id = Some (failure_entry err (now w1)) /\
    files w3 = match files w1 !! cf (now w1) p d n with
               | Some f => if deletable f
                           then delete (cf (now w1) p d n) (files w1)
                           else files w1
               | None => files w1
               end.
Proof.
  destruct (performBackup_catch_spec cf id p d n err w1)
    as (w2 & evs & -> & Hclean & Ht & Htbl & Hnow & _).
  destruct (cleaned_silent _ _ _ _ id Hclean) as (_ & Hex & Hup).
  destruct (route_tail_spec id (Threw err) w2)
    as (w3 & evs3 & -> & Ht3 & Hex3 & Hup3 & _ & Hfs3 & _ & Hcases).
  exists w3, (evs ++ [TableSet id (failure_entry err (now w1))] ++ evs3).
  split; [done|]. split; [by rewrite Ht3, Ht, <- !app_assoc|].
  rewrite !export_calls_app, !upload_calls_app, Hex, Hex3, Hup, Hup3.
  repeat split.
  - destruct Hcases as [(_ & _ & ->) | (_ & ->)];
      by rewrite ?Htbl, ?Hnow, lookup_insert_eq.
  - rewrite Hfs3. unfold cleaned in Hclean.
    destruct (files w1 !! cf (now w1) p d n) as [f|].
    + destruct (deletable f); by destruct Hclean as [-> _].
    + by destruct Hclean as [-> _].
Qed.

(** X3: a job for which everything works goes through [pending], [exporting]
    and [uploading] to [completed]: its entry then holds the name of the
    archive and the tag of the storage, the local file is gone, and the
    export library and the upload have each been called once. *)
Theorem successful_job_completes
    cf sc p d a tok n table fs t (f : File) (ETag : option string) :
  storage_configured sc = true ->
  createClient_throws sc = None ->
  probe_throws sc = None ->
  export_throws sc = None ->
  export_writes sc = Some f ->
  deletable f = true ->
  upload_result sc = inr ETag ->
  exists w entries,
    startBackup cf sc p d a tok n (at_rest table fs t)
    = (Returned (make_backupId p d t), w) /\
    backupStatus w !! make_backupId p d t
    = Some (completed_entry (cf (t + probe_delay sc) p d n) ETag
              (t + probe_delay sc + export_delay sc + upload_delay sc)) /\
    files w !! cf (t + probe_delay sc) p d n = None /\
    writes_to (make_backupId p d t) (trace w)
    = [pending_entry t; exporting_entry (t + probe_delay sc);
       uploading_entry (t + probe_delay sc + export_delay sc)]
      ++ entries
      ++ [completed_entry (cf (t + probe_delay sc) p d n) ETag
            (t + probe_delay sc + export_delay sc + upload_delay sc)] /\
    Forall (progress_of (uploading_entry (t + probe_delay sc + export_delay sc)))
           entries /\
    export_calls (trace w) = 1%nat /\ upload_calls (trace w) = 1%nat.
Proof.
  intros Hconf Hclient Hprobe Hexport Hwrites Hdel Hupload.
  rewrite reach_export by done. cbv zeta.
  set (id := make_backupId p d t).
  destruct (export_stage cf sc id p d n table fs t)
    as (tbl3 & entries & Hall & Hlast & Heq).
  cbv zeta in Heq. rewrite Heq, Hexport. unfold files_after_export.
  rewrite Hwrites, lookup_insert_eq, Hupload, Hdel.
  match goal with
  | |- context [route_tail id ?o ?w1] =>
      destruct (route_tail_spec id o w1)
        as (w3 & evs & -> & Ht3 & Hex & Hup & _ & Hfs & _ & Hw & Htbl)
  end.
  exists w3, entries. split; [done|]. simpl in Ht3, Hfs, Htbl.
  split; [by rewrite Htbl, lookup_insert_eq|].
  split; [by rewrite Hfs, lookup_delete_eq|].
  rewrite Ht3. split; [|split; [exact Hall|]].
  - count_trace. by rewrite Hw, app_nil_r.
  - split; count_trace; rewrite ?Hex, ?Hup; reflexivity.
Qed.




(** X7: when the archive has been uploaded but the local file cannot be
    removed, the job is recorded as [failed], with the error of the
    removal, although the archive is in the storage; the local file stays. *)
Theorem uploaded_job_fails_when_the_file_stays
    cf sc p d a tok n table fs t (f : File) (ETag : option string) :
  storage_configured sc = true ->
  createClient_throws sc = None ->
  probe_throws sc = None ->
  export_throws sc = None ->
  files_after_export sc fs (cf (t + probe_delay sc) p d n)
    !! cf (t + probe_delay sc) p d n = Some f ->
  deletable f = false ->
  upload_result sc = inr ETag ->
  exists w e,
    startBackup cf sc p d a tok n (at_rest table fs t)
    = (Returned (make_backupId p d t), w) /\
    backupStatus w !! make_backupId p d t = Some e /\
    status e = failed /\ is_Some (error e) /\ s3Location e = None /\
    upload_calls (trace w) = 1%nat /\
    files w !! cf (t + probe_delay sc) p d n = Some f.
Proof.
  intros Hconf Hclient Hprobe Hexport Hfile Hdel Hupload.
  rewrite reach_export by done. cbv zeta.
  set (id := make_backupId p d t).
  destruct (export_stage cf sc id p d n table fs t)
    as (tbl3 & entries & Hall & Hlast & Heq).
  cbv zeta in Heq. rewrite Heq, Hexport, Hfile, Hupload, Hdel.
  match goal with
  | |- context [performBackup_catch cf id p d n ?e ?w1] =>
      destruct (fail_and_finish_files cf id p d n e w1)
        as (w3 & evs & -> & Ht3 & Hex & Hup & Htbl & Hfs)
  end.
  exists w3. eexists. split; [done|]. split; [exact Htbl|]. simpl in Ht3, Hfs.
  split; [done|]. split; [by eexists|]. split; [done|].
  rewrite Ht3. split; [count_trace; by rewrite Hup|].
  rewrite Hfs.
  set (filename := cf (t + probe_delay sc) p d n) in *.
  match goal with
  | |- context [files_after_export sc fs filename !! ?path] =>
      destruct (decide (path = filename)) as [->|Hne]
  end.
  - by rewrite Hfile, Hdel.
  - match goal with
    | |- context [files_after_export sc fs filename !! ?path] =>
        destruct (files_after_export sc fs filename !! path) as [g|]; [|done];
        destruct (deletable g); [|done]
    end.
    by rewrite lookup_delete_ne.
Qed.

(** X8: after a job that failed, the local archive, under the name that
    [createFilename] gives it then, is gone unless it cannot be removed. *)
Theorem failed_job_leaves_no_removable_file
    cf sc id p d a tok n (w : World) (err : Js.Thrown) (w' : World) :
  performBackup cf sc id p d a tok n w = (Threw err, w') ->
  match files w' !! cf (now w') p d n with
  | None => True
  | Some f => deletable f = false
  end.
Proof.
  unfold performBackup, try_catch.
  destruct (performBackup_try cf sc id p d a tok n w) as [[[]|e] w1]; [done|].
  destruct (performBackup_catch_spec cf id p d n e w1)
    as (w2 & evs & -> & Hclean & _ & _ & Hnow & _).
  intros [= -> ->]. rewrite Hnow. unfold cleaned in Hclean.
  destruct (files w1 !! cf (now w1) p d n) as [f|] eqn:Hf.
  - destruct (deletable f) eqn:Hdel.
    + destruct Hclean as [-> _]. by rewrite lookup_delete_eq.
    + destruct Hclean as [-> _]. by rewrite Hf.
  - destruct Hclean as [-> _]. by rewrite Hf.
Qed.

Lemma failed_job_leaves_no_removable_file_witness :
  match files (snd (performBackup Samples.dated_filename MoreSamples.export_fails
                      Samples.job "abc123" "production" "v2024-01-01" "token"
                      "acme" (started ∅ ∅ 1000 Samples.job)))
        !! Samples.dated_filename
             (now (snd (performBackup Samples.dated_filename
                          MoreSamples.export_fails Samples.job "abc123"
                          "production" "v2024-01-01" "token" "acme"
                          (started ∅ ∅ 1000 Samples.job))))
             "abc123" "production" "acme" with
  | None => True
  | Some f => deletable f = false
  end.
Proof.
  apply (failed_job_leaves_no_removable_file Samples.dated_filename
           MoreSamples.export_fails Samples.job "abc123" "production"
           "v2024-01-01" "token" "acme" (started ∅ ∅ 1000 Samples.job)
           (Js.ErrorObj "boom")).
  vm_compute. reflexivity.
Defined.

Lemma progress_events_witness :
  exists w' entries,
    for_each (onProgress Samples.job)
      [(Some 5, Some 10); (None, Some 3); (Some 0, Some 10); (Some 23, Some 40)]
      MoreSamples.uploading_world = (Returned tt, w') /\
    trace w' = trace MoreSamples.uploading_world
               ++ map (TableSet Samples.job) entries /\
    length entries
    = length (List.filter effective
                [(Some 5, Some 10); (None, Some 3); (Some 0, Some 10);
                 (Some 23, Some 40)]) /\
    Forall (progress_of
              (mkEntry uploading "Uploading to S3..." None None None None 6120))
           entries /\
    backupStatus w' !! Samples.job
    = Some (List.last entries
              (mkEntry uploading "Uploading to S3..." None None None None 6120)) /\
    (forall id', id' <> Samples.job ->
       backupStatus w' !! id' = backupStatus MoreSamples.uploading_world !! id') /\
    files w' = files MoreSamples.uploading_world /\
    now w' = now MoreSamples.uploading_world.
Proof.
  apply (progress_events_keep_the_entry Samples.job
           [(Some 5, Some 10); (None, Some 3); (Some 0, Some 10); (Some 23, Some 40)]
           MoreSamples.uploading_world
           (mkEntry uploading "Uploading to S3..." None None None None 6120)).
  reflexivity.
Defined.

(** The percentages are those of the floating-point arithmetic: 23 bytes of
    40 are 57%, as the quotient is a little under 0.575. *)
Lemma percentage_of_23_in_40 :
  percentage 23 40 = 57 /\ percentage 5 10 = 50 /\ percentage 1 200 = 1 /\
  map progress
    (writes_to Samples.job
       (trace (snd (for_each (onProgress Samples.job)
                      [(Some 5, Some 10); (None, Some 3); (Some 0, Some 10);
                       (Some 23, Some 40)]
                      MoreSamples.uploading_world))))
  = [Some 50; Some 57].
Proof. vm_compute. repeat split; reflexivity. Qed.

Lemma successful_job_witness :
  exists w,
    Samples.request Samples.all_goes_well (at_rest ∅ ∅ 1000)
    = (Returned Samples.job, w) /\
    files w !! Samples.archive = None /\
    export_calls (trace w) = 1%nat /\ upload_calls (trace w) = 1%nat.
Proof.
  destruct (successful_job_completes Samples.dated_filename
              Samples.all_goes_well "abc123" "production" "v2024-01-01"
              "token" "acme" ∅ ∅ 1000 (mkFile 4096 true) (Some "etag-1"))
    as (w & entries & Hrun & _ & Hfs & _ & _ & Hex & Hup); try reflexivity.
  exists w. split; [exact Hrun|]. split; [exact Hfs|]. split; [exact Hex|exact Hup].
Defined.




Lemma file_stays_witness :
  exists w e,
    Samples.request MoreSamples.file_stays (at_rest ∅ ∅ 1000)
    = (Returned Samples.job, w) /\
    backupStatus w !! Samples.job = Some e /\
    status e = failed /\
    upload_calls (trace w) = 1%nat /\
    files w !! Samples.archive = Some (mkFile 4096 false).
Proof.
  destruct (uploaded_job_fails_when_the_file_stays Samples.dated_filename
              MoreSamples.file_stays "abc123" "production" "v2024-01-01"
              "token" "acme" ∅ ∅ 1000 (mkFile 4096 false) (Some "etag-8"))
    as (w & e & Hrun & Htbl & Hst & _ & _ & Hup & Hfs); try reflexivity.
  exists w, e. split; [exact Hrun|]. split; [exact Htbl|].
  split; [exact Hst|]. split; [exact Hup|exact Hfs].
Defined.

End BackupMore.

(** ** The listing script *)

Module ListScriptFacts.
Import Listing ListScript ListingFacts.
Local Open Scope list_scope.

Lemma split_parts_free (c : ascii) (s : string) :
  Forall (fun part => Js.contains c part = false) (Js.split c s).
Proof.
  induction s as [|x s IH]; simpl; [by repeat constructor|].
  destruct (Ascii.eqb x c) eqn:Hx; [by constructor|].
  destruct (Js.split c s) as [|part rest].
  { constructor; [|done]. simpl. by rewrite Hx. }
  apply Forall_cons in IH as [Hpart Hrest].
  constructor; [|done]. simpl. by rewrite Hx, Hpart.
Qed.

Lemma nth_Forall {A} (P : A -> Prop) (l : list A) (i : nat) (dflt : A) :
  Forall P l -> P dflt -> P (nth i l dflt).
Proof.
  intros Hl Hd. revert i. induction Hl as [|x l Hx Hl IH]; intros [|i]; simpl; auto.
Qed.

Lemma parsed_date_has_no_hyphen (obj : S3Object) :
  Js.contains "-" (date (summarize obj)) = false.
Proof.
  unfold summarize. destruct (4 <=? length _)%nat; simpl; [|done].
  apply (nth_Forall (fun part => Js.contains "-" part = false)); [|done].
  unfold Js.slice_last. apply Forall_drop, split_parts_free.
Qed.

Lemma group_step_month_of (grouped : gmap string (list ArchiveSummary))
    (backup : ArchiveSummary) :
  group_step grouped backup
  = match month_of backup with
    | Some monthYear =>
        <[monthYear := default [] (grouped !! monthYear) ++ [backup]]> grouped
    | None => grouped
    end.
Proof.
  unfold group_step, month_of. destruct (Js.truthy (date backup)); [|done].
  by destruct (Js.split "-" (date backup)) as [|year [|month rest]].
Qed.

Lemma month_of_needs_a_hyphen (backup : ArchiveSummary) :
  Js.contains "-" (date backup) = false -> month_of backup = None.
Proof.
  intros H. unfold month_of. rewrite (BackupFacts.split_without_sep "-" _ H).
  by destruct (Js.truthy (date backup)).
Qed.

Lemma foldl_group_step (backups : list ArchiveSummary)
    (grouped : gmap string (list ArchiveSummary)) (monthYear : string) :
  default [] (foldl group_step grouped backups !! monthYear)
  = default [] (grouped !! monthYear)
    ++ filter (fun b => month_of b = Some monthYear) backups.
Proof.
  revert grouped. induction backups as [|b backups IH]; intros grouped; simpl.
  - by rewrite app_nil_r.
  - rewrite IH, group_step_month_of, filter_cons.
    destruct (month_of b) as [m|] eqn:Hm.
    + destruct (decide (m = monthYear)) as [->|Hne].
      * rewrite lookup_insert_eq, decide_True by done. simpl.
        by rewrite <- app_assoc.
      * rewrite lookup_insert_ne, decide_False by congruence. done.
    + by rewrite decide_False.
Qed.

(** X13: the script groups the backups by the first two parts of their date:
    the group of a month holds, in the order of the listing, exactly the
    backups whose date begins with that year and month; a backup whose
    date is empty or has no hyphen is in no group. *)
Theorem groupBackups_by_month (backups : list ArchiveSummary) (monthYear : string) :
  default [] (groupBackups backups !! monthYear)
  = filter (fun b => month_of b = Some monthYear) backups.
Proof.
  unfold groupBackups. by rewrite foldl_group_step, lookup_empty.
Qed.

Lemma groupBackups_nothing (backups : list ArchiveSummary) :
  Forall (fun b => month_of b = None) backups -> groupBackups backups = ∅.
Proof.
  unfold groupBackups. generalize (∅ : gmap string (list ArchiveSummary)).
  induction backups as [|b backups IH]; intros grouped Hall; [done|].
  apply Forall_cons in Hall as [Hb Hall]. simpl.
  rewrite group_step_month_of, Hb. by apply IH.
Qed.

(** X14: whatever the bucket holds, the script shows no backup of a listing of
    the server: the server's dates are single parts of the key, without a
    hyphen, and the script groups by the first two parts of a date. *)
Theorem listBackups_shows_no_backup_of_the_server
    (S3_BUCKET_NAME AWS_REGION : option string)
    (listObjects : string -> ListObjectsResult) :
  match listBackups (listArchives S3_BUCKET_NAME AWS_REGION listObjects) with
  | Months _ groups => groups = ∅
  | _ => True
  end.
Proof.
  unfold listArchives.
  destruct (negb (Js.truthy_opt S3_BUCKET_NAME)); [done|].
  destruct (listObjects _) as [e|[contents|]]; [done| |done].
  simpl. destruct (backupFiles contents) eqn:Hfiles; [done|].
  rewrite <- Hfiles. apply groupBackups_nothing.
  unfold backupFiles. rewrite sort_perm.
  apply Forall_forall. intros b Hb.
  apply list_elem_of_fmap in Hb as (obj & -> & _).
  apply month_of_needs_a_hyphen, parsed_date_has_no_hyphen.
Qed.

End ListScriptFacts.

(** ** The poller *)

Module PollerFacts.
Import Backup BackupFrames Poller.
Local Open Scope list_scope.

Lemma checkBackupStatus_again (answer : FetchResult * option Js.Thrown) :
  final answer = false ->
  checkBackupStatus (fst answer) (snd answer) = CheckAgain 30000.
Proof.
  destruct answer as [[e|httpStatus [statusData|]] [u|]]; simpl; try done;
    destruct (ok httpStatus); simpl; try done;
    by destruct (view_status statusData).
Qed.

Lemma poll_again (answers : list (FetchResult * option Js.Thrown)) :
  Forall (fun answer => final answer = false) answers ->
  poll answers = (replicate (length answers) 30000, None).
Proof.
  induction 1 as [|[response u] answers Hfinal _ IH]; [done|].
  pose proof (checkBackupStatus_again (response, u) Hfinal) as Hagain.
  simpl in Hagain. cbn [poll length replicate]. by rewrite Hagain, IH.
Qed.

(** X15: the page never gives up: as long as no answer is a readable response
    with a terminal state whose recording succeeds, every check is followed
    by another one 30000 ms later, and nothing is recorded. *)
Theorem poller_keeps_asking (answers : list (FetchResult * option Js.Thrown)) :
  Forall (fun answer => final answer = false) answers ->
  poll answers = (replicate (length answers) 30000, None).
Proof.
  intros Hall. induction answers as [|[response u] answers IH]; [done|].
  apply Forall_cons in Hall as [Hfinal Hall].
  pose proof (checkBackupStatus_again (response, u) Hfinal) as Hagain.
  simpl in Hagain. cbn [poll length replicate].
  rewrite Hagain, (IH Hall). reflexivity.
Qed.

Lemma poller_keeps_asking_witness :
  poll [(FetchThrows (Js.ErrorObj "fetch failed"), None);
        (FetchResponds 404 None, None);
        (FetchResponds 200
           (Some (mkStatusView uploading "Uploading to S3... 50%" (Some 50)
                               None None None 1000 200)), None)]
  = (replicate
       (length [(FetchThrows (Js.ErrorObj "fetch failed"), None : option Js.Thrown);
                (FetchResponds 404 None, None);
                (FetchResponds 200
                   (Some (mkStatusView uploading "Uploading to S3... 50%"
                            (Some 50) None None None 1000 200)), None)])
       30000, None).
Proof.
  apply (poller_keeps_asking
           [(FetchThrows (Js.ErrorObj "fetch failed"), None);
            (FetchResponds 404 None, None);
            (FetchResponds 200
               (Some (mkStatusView uploading "Uploading to S3... 50%" (Some 50)
                                   None None None 1000 200)), None)]).
  repeat constructor.
Defined.

(** X16: a job that the server does not know, as after a restart of the
    server, is asked about again and again: every check gets the 404 of the
    status route and schedules the next one. *)
Theorem unknown_job_is_polled_without_end
    (table : gmap string Entry) (id : string) (times : list Z) :
  table !! id = None ->
  poll (map (fun t => (serve (getStatus id (mkSnapshot table t)), None)) times)
  = (replicate (length times) 30000, None).
Proof.
  intros Hid.
  rewrite <- (length_map
                (fun t => (serve (getStatus id (mkSnapshot table t)),
                           None : option Js.Thrown)) times).
  apply poll_again. apply Forall_forall. intros answer Hin.
  apply list_elem_of_fmap in Hin as (t & -> & _).
  unfold getStatus. simpl. by rewrite Hid.
Qed.

Lemma unknown_job_witness :
  poll (map (fun t => (serve (getStatus "abc123-production-1000"
                                (mkSnapshot ∅ t)), None))
            [11000; 41000; 71000])
  = (replicate (length [11000; 41000; 71000]) 30000, None).
Proof.
  apply (unknown_job_is_polled_without_end ∅ "abc123-production-1000"
           [11000; 41000; 71000]).
  reflexivity.
Defined.


End PollerFacts.

(** ** More on the download *)

Module DownloadMore.
Import Download.

Lemma header_valid_app (s t : string) :
  header_valid (s +:+ t) = header_valid s && header_valid t.
Proof.
  induction s as [|c s IH]; [reflexivity|].
  change (String c s +:+ t) with (String c (s +:+ t)).
  cbn [header_valid]. rewrite IH. by rewrite andb_assoc.
Qed.

(** The header is refused exactly when the last segment of the key is. *)
Lemma contentDisposition_valid (dir name : string) :
  Js.contains "/" name = false ->
  contentDisposition (dir +:+ "/" +:+ name)
  = "attachment; filename=" +:+ quote +:+ name +:+ quote /\
  header_valid (contentDisposition (dir +:+ "/" +:+ name)) = header_valid name.
Proof.
  intros Hname. unfold contentDisposition.
  change (dir +:+ "/" +:+ name) with (dir +:+ String "/" name).
  rewrite (BackupFacts.last_segment_app "/" dir name Hname).
  split; [reflexivity|].
  rewrite !header_valid_app.
  change (header_valid "attachment; filename=") with true.
  change (header_valid quote) with true.
  by rewrite andb_true_r.
Qed.

(** X18: the file name offered to the browser is the part of the key after its
    last slash. When that name holds a character that no header may hold,
    a line feed for one, the request is answered with status 500 although
    the storage has the object; otherwise the download goes out as
    [application/gzip] under that name, with a [Content-Length] unless
    the storage gives none or gives 0, and is streamed to its end or to
    the failure of the body stream, which ends the process. *)
Theorem download_is_named_after_the_last_segment
    (bucket dir name : string) (stream : BodyStream) (len : option Z)
    (getObject : string -> string -> GetObjectResult) :
  Js.truthy bucket = true ->
  Js.contains "/" name = false ->
  getObject bucket (dir +:+ "/" +:+ name) = GetResolves (Some stream) len ->
  (header_valid name = false ->
   downloadArchive (Some bucket) getObject (dir +:+ "/" +:+ name)
   = DownloadError 500 (invalid_header "Content-Disposition")) /\
  (header_valid name = true ->
   exists contentLength,
     downloadArchive (Some bucket) getObject (dir +:+ "/" +:+ name)
     = match failure stream with
       | None =>
           DownloadStream "application/gzip"
             ("attachment; filename=" +:+ quote +:+ name +:+ quote)
             contentLength (delivered stream)
       | Some e =>
           ProcessExit "application/gzip"
             ("attachment; filename=" +:+ quote +:+ name +:+ quote)
             contentLength (delivered stream) e
       end /\
     (contentLength = None <-> len = None \/ len = Some 0)).
Proof.
  intros Hb Hname Hget.
  destruct (contentDisposition_valid dir name Hname) as [Hvalue Hvalid].
  unfold downloadArchive. cbn [Js.truthy_opt from_option id negb].
  rewrite Hb. cbn [negb]. rewrite Hget, Hvalid, Hvalue.
  split; intros ->; cbn [negb]; [reflexivity|].
  eexists. split; [destruct (failure stream); reflexivity|].
  destruct len as [k|]; [|by split; auto].
  destruct (Z.eqb_spec k 0) as [->|Hk]; split; auto; try done.
  intros [|[= ?]]; done.
Qed.

Lemma download_name_witness :
  (header_valid "acme.tar.gz" = false ->
   downloadArchive (Some "backups")
     (fun _ _ => GetResolves (Some (mkBody "bytes" None)) (Some 5))
     ("2025/01" +:+ "/" +:+ "acme.tar.gz")
   = DownloadError 500 (invalid_header "Content-Disposition")) /\
  (header_valid "acme.tar.gz" = true ->
   exists contentLength,
     downloadArchive (Some "backups")
       (fun _ _ => GetResolves (Some (mkBody "bytes" None)) (Some 5))
       ("2025/01" +:+ "/" +:+ "acme.tar.gz")
     = match failure (mkBody "bytes" None) with
       | None =>
           DownloadStream "application/gzip"
             ("attachment; filename=" +:+ quote +:+ "acme.tar.gz" +:+ quote)
             contentLength (delivered (mkBody "bytes" None))
       | Some e =>
           ProcessExit "application/gzip"
             ("attachment; filename=" +:+ quote +:+ "acme.tar.gz" +:+ quote)
             contentLength (delivered (mkBody "bytes" None)) e
       end /\
     (contentLength = None <-> Some 5 = None \/ Some 5 = Some 0)).
Proof.
  apply (download_is_named_after_the_last_segment "backups" "2025/01"
           "acme.tar.gz" (mkBody "bytes" None) (Some 5)
           (fun _ _ => GetResolves (Some (mkBody "bytes" None)) (Some 5)));
    reflexivity.
Defined.

(** A key whose last segment holds a line feed: the storage has the
    object, the answer is an error. *)
Lemma line_feed_in_the_name_gives_500 :
  downloadArchive (Some "backups")
    (fun _ _ => GetResolves (Some (mkBody "bytes" None)) (Some 5))
    ("2025/01/" +:+ String "010" "acme.tar.gz")
  = DownloadError 500 (invalid_header "Content-Disposition").
Proof. vm_compute. reflexivity. Qed.

End DownloadMore.
